(** * Type Safe Storage: a shallow embedding of the facade and its value parser

    The development follows the TypeScript sources:
    - [TypeSafeStorage] (src/TypeSafeStorage.ts): the typed facade over
      [AsyncStorage];
    - [ValueParser]: [stringify], [parseValue], [isNumber], [isJSON],
      [validateJSON].

    The sources call built-ins of the JavaScript platform ([JSON.parse],
    [JSON.stringify], [parseFloat], [isNaN], loose equality, [typeof]) and the
    external [AsyncStorage] service.  These are modelled first, following
    ECMA-262, as executable functions. *)

From Stdlib Require Import ZArith NArith List String Ascii Bool Lia.
From Stdlib Require Import Decimal DecimalN.
From stdpp Require Import base option strings gmap.

Local Open Scope char_scope.
Local Open Scope list_scope.

(* ===================================================================== *)
(** ** Characters and decimal digits *)
(* ===================================================================== *)

Inductive digit : Type := d0 | d1 | d2 | d3 | d4 | d5 | d6 | d7 | d8 | d9.

Definition digit_eqb (a b : digit) : bool :=
  match a, b with
  | d0, d0 | d1, d1 | d2, d2 | d3, d3 | d4, d4
  | d5, d5 | d6, d6 | d7, d7 | d8, d8 | d9, d9 => true
  | _, _ => false
  end.

Definition is_zero (d : digit) : bool := digit_eqb d d0.

Definition ascii_of_digit (d : digit) : ascii :=
  match d with
  | d0 => "0" | d1 => "1" | d2 => "2" | d3 => "3" | d4 => "4"
  | d5 => "5" | d6 => "6" | d7 => "7" | d8 => "8" | d9 => "9"
  end.

Definition digit_of_ascii (c : ascii) : option digit :=
  if Ascii.eqb c "0" then Some d0 else
  if Ascii.eqb c "1" then Some d1 else
  if Ascii.eqb c "2" then Some d2 else
  if Ascii.eqb c "3" then Some d3 else
  if Ascii.eqb c "4" then Some d4 else
  if Ascii.eqb c "5" then Some d5 else
  if Ascii.eqb c "6" then Some d6 else
  if Ascii.eqb c "7" then Some d7 else
  if Ascii.eqb c "8" then Some d8 else
  if Ascii.eqb c "9" then Some d9 else None.

(** The longest prefix of decimal digits, and what follows it. *)
Fixpoint span_digits (cs : list ascii) : list digit * list ascii :=
  match cs with
  | c :: cs' =>
      match digit_of_ascii c with
      | Some d => let (ds, rest) := span_digits cs' in (d :: ds, rest)
      | None => ([], cs)
      end
  | [] => ([], [])
  end.

Fixpoint uint_of_digits (ds : list digit) : uint :=
  match ds with
  | [] => Nil
  | d :: ds' =>
      let u := uint_of_digits ds' in
      match d with
      | d0 => D0 u | d1 => D1 u | d2 => D2 u | d3 => D3 u | d4 => D4 u
      | d5 => D5 u | d6 => D6 u | d7 => D7 u | d8 => D8 u | d9 => D9 u
      end
  end.

Fixpoint digits_of_uint (u : uint) : list digit :=
  match u with
  | Nil => []
  | D0 u => d0 :: digits_of_uint u | D1 u => d1 :: digits_of_uint u
  | D2 u => d2 :: digits_of_uint u | D3 u => d3 :: digits_of_uint u
  | D4 u => d4 :: digits_of_uint u | D5 u => d5 :: digits_of_uint u
  | D6 u => d6 :: digits_of_uint u | D7 u => d7 :: digits_of_uint u
  | D8 u => d8 :: digits_of_uint u | D9 u => d9 :: digits_of_uint u
  end.

(** Value of a digit sequence read in base ten, and the decimal digits of a
    natural number (["0"] for zero, no leading zero otherwise). *)
Definition N_of_digits (ds : list digit) : N := N.of_uint (uint_of_digits ds).
Definition digits_of_N (n : N) : list digit := digits_of_uint (N.to_uint n).

Fixpoint drop_zeros (ds : list digit) : list digit :=
  match ds with
  | d :: ds' => if is_zero d then drop_zeros ds' else ds
  | [] => []
  end.

Fixpoint count_zeros (ds : list digit) : nat :=
  match ds with
  | d :: ds' => if is_zero d then S (count_zeros ds') else 0
  | [] => 0
  end.

Definition drop_trailing_zeros (ds : list digit) : list digit :=
  rev (drop_zeros (rev ds)).

(** WhiteSpace and LineTerminator code units of ECMA-262 that fit in one
    byte: TAB, LF, VT, FF, CR, SP and NBSP. *)
Definition is_js_space (c : ascii) : bool :=
  let n := nat_of_ascii c in
  (Nat.eqb n 9 || Nat.eqb n 10 || Nat.eqb n 11 || Nat.eqb n 12
   || Nat.eqb n 13 || Nat.eqb n 32 || Nat.eqb n 160)%bool.

Fixpoint trim_start (cs : list ascii) : list ascii :=
  match cs with
  | c :: cs' => if is_js_space c then trim_start cs' else cs
  | [] => []
  end.

Definition trim_end (cs : list ascii) : list ascii :=
  rev (trim_start (rev cs)).

Definition trim (cs : list ascii) : list ascii := trim_end (trim_start cs).

(** [expect c cs] is what follows [c] in [cs] when [cs] starts with [c]. *)
Definition expect (c : ascii) (cs : list ascii) : option (list ascii) :=
  match cs with
  | x :: r => if Ascii.eqb x c then Some r else None
  | [] => None
  end.

(** [strip_prefix p cs] is what follows [p] in [cs] when [cs] starts with [p]. *)
Fixpoint strip_prefix (p cs : list ascii) : option (list ascii) :=
  match p, cs with
  | [], _ => Some cs
  | a :: p', c :: cs' => if Ascii.eqb a c then strip_prefix p' cs' else None
  | _ :: _, [] => None
  end.

(* ===================================================================== *)
(** ** Numbers *)
(* ===================================================================== *)

(** The Number type.  A finite non-zero number is kept as its decimal
    expansion, in the form ECMA-262 uses for [Number::toString]: digits
    [d1 ... dk] and an exponent [n] stand for [0.d1...dk * 10^n].  The form is
    canonical when [d1] and [dk] are not zero ([wf]).  Numbers are exact
    decimals: the rounding of a literal to the nearest binary64 value, and
    overflow to Infinity, are not modelled. *)
Module Number.

Inductive number : Type :=
| NaN
| Infinity (neg : bool)
| Zero (neg : bool)
| Finite (neg : bool) (ds : list digit) (n : Z).

Definition wf (x : number) : Prop :=
  match x with
  | Finite _ ds _ =>
      ds <> [] /\ List.hd d1 ds <> d0 /\ List.last ds d1 <> d0
  | _ => True
  end.

(** Canonical number with sign [neg] and value [0.ds * 10^n]. *)
Definition make (neg : bool) (ds : list digit) (n : Z) : number :=
  let lead := count_zeros ds in
  match drop_trailing_zeros (drop_zeros ds) with
  | [] => Zero neg
  | ds' => Finite neg ds' (n - Z.of_nat lead)
  end.

Definition of_N (neg : bool) (m : N) : number :=
  let ds := digits_of_N m in make neg ds (Z.of_nat (length ds)).

Definition of_Z (z : Z) : number := of_N (Z.ltb z 0) (Z.abs_N z).

(** [isNaN] *)
Definition isNaN (x : number) : bool :=
  match x with NaN => true | _ => false end.

Definition list_digit_eqb (a b : list digit) : bool :=
  (Nat.eqb (length a) (length b)
   && forallb (fun p => digit_eqb (fst p) (snd p)) (combine a b))%bool.

(** [Number::equal]: NaN differs from everything, the two zeros are equal. *)
Definition equal (x y : number) : bool :=
  match x, y with
  | NaN, _ | _, NaN => false
  | Infinity a, Infinity b => Bool.eqb a b
  | Zero _, Zero _ => true
  | Finite a ds n, Finite b es m =>
      (Bool.eqb a b && list_digit_eqb ds es && Z.eqb n m)%bool
  | _, _ => false
  end.

(** *** Reading: StrDecimalLiteral *)

Definition infinity_text : list ascii :=
  ["I"; "n"; "f"; "i"; "n"; "i"; "t"; "y"].

(** An optional sign: is it a minus, and what follows. *)
Definition scan_sign (cs : list ascii) : bool * list ascii :=
  match cs with
  | s :: cs' =>
      if Ascii.eqb s "-" then (true, cs')
      else if Ascii.eqb s "+" then (false, cs')
      else (false, cs)
  | [] => (false, cs)
  end.

(** ExponentPart: [e] or [E], an optional sign and at least one digit.
    Returns the exponent and the rest; an incomplete exponent is not
    consumed. *)
Definition scan_exponent (cs : list ascii) : Z * list ascii :=
  match cs with
  | c :: cs1 =>
      if (Ascii.eqb c "e" || Ascii.eqb c "E")%bool then
        let (sg, cs2) := scan_sign cs1 in
        let (ds, rest) := span_digits cs2 in
        match ds with
        | [] => (0%Z, cs)
        | _ :: _ =>
            let v := Z.of_N (N_of_digits ds) in
            (if sg then Z.opp v else v, rest)
        end
      else (0%Z, cs)
  | [] => (0%Z, cs)
  end.

(** StrUnsignedDecimalLiteral, longest match. *)
Definition scan_unsigned (neg : bool) (cs : list ascii)
  : option (number * list ascii) :=
  match strip_prefix infinity_text cs with
  | Some rest => Some (Infinity neg, rest)
  | None =>
      let (ip, r1) := span_digits cs in
      match expect "." r1 with
      | Some r2 =>
          let (fp, r3) := span_digits r2 in
          match ip, fp with
          | [], [] => None
          | _, _ =>
              let (e, r4) := scan_exponent r3 in
              Some (make neg (ip ++ fp) (Z.of_nat (length ip) + e), r4)
          end
      | None =>
          match ip with
          | [] => None
          | _ =>
              let (e, r4) := scan_exponent r1 in
              Some (make neg ip (Z.of_nat (length ip) + e), r4)
          end
      end
  end.

(** StrDecimalLiteral: an optional sign and an unsigned literal. *)
Definition scan_decimal (cs : list ascii) : option (number * list ascii) :=
  match cs with
  | c :: cs' =>
      if Ascii.eqb c "-" then scan_unsigned true cs'
      else if Ascii.eqb c "+" then scan_unsigned false cs'
      else scan_unsigned false cs
  | [] => None
  end.

(** [parseFloat]: leading white space is skipped, then the longest prefix
    that is a StrDecimalLiteral is read; NaN when there is none. *)
Definition parseFloat (s : string) : number :=
  match scan_decimal (trim_start (list_ascii_of_string s)) with
  | Some (x, _) => x
  | None => NaN
  end.

(** NonDecimalIntegerLiteral: [0x], [0o], [0b] and digits of that base. *)
Definition radix_digit (radix : N) (c : ascii) : option N :=
  let n := N_of_ascii c in
  let v :=
    if (N.leb 48 n && N.leb n 57)%bool then Some (n - 48)%N
    else if (N.leb 97 n && N.leb n 102)%bool then Some (n - 87)%N
    else if (N.leb 65 n && N.leb n 70)%bool then Some (n - 55)%N
    else None in
  match v with
  | Some d => if N.ltb d radix then Some d else None
  | None => None
  end.

Fixpoint radix_value (radix : N) (acc : N) (cs : list ascii) : option N :=
  match cs with
  | [] => Some acc
  | c :: cs' =>
      match radix_digit radix c with
      | Some d => radix_value radix (acc * radix + d)%N cs'
      | None => None
      end
  end.

Definition scan_non_decimal (cs : list ascii) : option number :=
  match cs with
  | z :: p :: (c :: _) as body =>
      if Ascii.eqb z "0" then
        let radix :=
          if (Ascii.eqb p "x" || Ascii.eqb p "X")%bool then Some 16%N
          else if (Ascii.eqb p "o" || Ascii.eqb p "O")%bool then Some 8%N
          else if (Ascii.eqb p "b" || Ascii.eqb p "B")%bool then Some 2%N
          else None in
        match radix with
        | Some r =>
            match radix_value r 0%N body with
            | Some v => Some (of_N false v)
            | None => None
            end
        | None => None
        end
      else None
  | _ => None
  end.

(** [StringToNumber], the conversion loose equality applies to a string
    compared with a number: white space is trimmed on both sides; the empty
    text is [+0]; the whole text must be a numeric literal, else NaN. *)
Definition of_string (s : string) : number :=
  match trim (list_ascii_of_string s) with
  | [] => Zero false
  | cs =>
      match scan_decimal cs with
      | Some (x, []) => x
      | _ =>
          match scan_non_decimal cs with
          | Some x => x
          | None => NaN
          end
      end
  end.

(** *** Writing: Number::toString, radix 10 *)

Definition chars_of_digits (ds : list digit) : list ascii :=
  map ascii_of_digit ds.

Definition zeros (n : nat) : list ascii := repeat "0" n.

(** The exponent part: [e], the sign, the decimal digits of [|e|]. *)
Definition exponent_text (e : Z) : list ascii :=
  "e" :: (if Z.ltb e 0 then "-" else "+") ::
  chars_of_digits (digits_of_N (Z.abs_N e)).

(** With [k] the number of digits: the digits and [n - k] zeros when
    [k <= n <= 21]; a dot after [n] digits when [0 < n <= 21]; [0.], [-n]
    zeros and the digits when [-6 < n <= 0]; exponent notation
    otherwise. *)
Definition to_chars_unsigned (ds : list digit) (n : Z) : list ascii :=
  let k := Z.of_nat (length ds) in
  if (Z.leb k n && Z.leb n 21)%bool then
    chars_of_digits ds ++ zeros (Z.to_nat (n - k))
  else if (Z.ltb 0 n && Z.leb n 21)%bool then
    chars_of_digits (firstn (Z.to_nat n) ds) ++ "." ::
    chars_of_digits (skipn (Z.to_nat n) ds)
  else if (Z.ltb (-6) n && Z.leb n 0)%bool then
    "0" :: "." :: zeros (Z.to_nat (- n)) ++ chars_of_digits ds
  else
    match ds with
    | [d] => ascii_of_digit d :: exponent_text (n - 1)
    | d :: ds' =>
        ascii_of_digit d :: "." :: chars_of_digits ds'
        ++ exponent_text (n - 1)
    | [] => exponent_text (n - 1)
    end.

Definition to_chars (x : number) : list ascii :=
  match x with
  | NaN => ["N"; "a"; "N"]
  | Infinity neg => (if neg then ["-"] else []) ++ infinity_text
  | Zero _ => ["0"]
  | Finite neg ds n =>
      (if neg then ["-"] else []) ++ to_chars_unsigned ds n
  end.

Definition to_string (x : number) : string :=
  string_of_list_ascii (to_chars x).

(** The number a text of [x] denotes: [x], but for the sign of zero. *)
Definition unsigned_zero (x : number) : number :=
  match x with
  | Zero _ => Zero false
  | _ => x
  end.

(** *** Shapes of text, to state what the readers accept *)

(** The text of a decimal literal: integer digits, an optional dot and
    fraction digits, an optional exponent part. *)
Definition literal_text (ip : list digit) (fp : option (list digit))
    (e : option Z) : list ascii :=
  chars_of_digits ip
  ++ match fp with Some f => "." :: chars_of_digits f | None => [] end
  ++ match e with Some x => exponent_text x | None => [] end.

(** A text stops a run of digits when it is empty or starts with a
    character that is not a digit. *)
Definition stops_digits (rest : list ascii) : Prop :=
  match rest with
  | [] => True
  | c :: _ => digit_of_ascii c = None
  end.

(** A text stops a numeric literal when it is empty or starts with a
    character that is neither a digit, nor a dot, nor an exponent mark. *)
Definition stops_number (rest : list ascii) : Prop :=
  match rest with
  | [] => True
  | c :: _ =>
      digit_of_ascii c = None /\ Ascii.eqb c "." = false
      /\ Ascii.eqb c "e" = false /\ Ascii.eqb c "E" = false
  end.

Definition no_space (cs : list ascii) : Prop :=
  Forall (fun c => is_js_space c = false) cs.

End Number.


(* ===================================================================== *)
(** ** Values, errors and results *)
(* ===================================================================== *)

(** The JavaScript values that flow through the facade: [undefined], and the
    values JSON can denote.  An object is the list of its own properties in
    creation order. *)
#[local] Unset Elimination Schemes.
Inductive value : Type :=
| VUndefined
| VNull
| VBool (b : bool)
| VNum (x : Number.number)
| VStr (s : string)
| VArr (items : list value)
| VObj (props : list (string * value)).
#[local] Set Elimination Schemes.

(** Exceptions (and rejections of a promise). *)
Inductive error : Type :=
| SyntaxError
| Error (message : string)
| StoreError (message : string).

Inductive result (A : Type) : Type :=
| Ok (a : A)
| Throw (e : error).
Arguments Ok {A} a.
Arguments Throw {A} e.

(** [typeof] *)
Inductive type_tag : Type :=
| TUndefined | TObject | TBoolean | TNumber | TString.

Definition typeof (v : value) : type_tag :=
  match v with
  | VUndefined => TUndefined
  | VNull | VArr _ | VObj _ => TObject
  | VBool _ => TBoolean
  | VNum _ => TNumber
  | VStr _ => TString
  end.

Definition type_tag_eqb (a b : type_tag) : bool :=
  match a, b with
  | TUndefined, TUndefined | TObject, TObject | TBoolean, TBoolean
  | TNumber, TNumber | TString, TString => true
  | _, _ => false
  end.

(** [ToBoolean]: the falsy values are [undefined], [null], [false], the
    zeros, NaN and the empty string. *)
Definition truthy (v : value) : bool :=
  match v with
  | VUndefined | VNull => false
  | VBool b => b
  | VNum Number.NaN | VNum (Number.Zero _) => false
  | VNum _ => true
  | VStr s => negb (String.eqb s EmptyString)
  | VArr _ | VObj _ => true
  end.

(* ===================================================================== *)
(** ** JSON *)
(* ===================================================================== *)

Module JSON.

(** *** JSON.stringify *)

Definition hex_char (n : N) : ascii :=
  if N.ltb n 10 then ascii_of_N (48 + n) else ascii_of_N (87 + n).

(** QuoteJSONString, one code unit. *)
Definition quote_char (c : ascii) : list ascii :=
  let n := N_of_ascii c in
  if N.eqb n 8 then ["\"; "b"]
  else if N.eqb n 9 then ["\"; "t"]
  else if N.eqb n 10 then ["\"; "n"]
  else if N.eqb n 12 then ["\"; "f"]
  else if N.eqb n 13 then ["\"; "r"]
  else if N.eqb n 34 then ["\"; "034"]
  else if N.eqb n 92 then ["\"; "\"]
  else if N.ltb n 32 then
    ["\"; "u"; "0"; "0"; hex_char (n / 16); hex_char (n mod 16)]
  else [c].

Definition quote (s : string) : list ascii :=
  "034" :: flat_map quote_char (list_ascii_of_string s) ++ ["034"].

Fixpoint join (l : list (list ascii)) : list ascii :=
  match l with
  | [] => []
  | [x] => x
  | x :: l' => x ++ "," :: join l'
  end.

Definition null_text : list ascii := ["n"; "u"; "l"; "l"].
Definition true_text : list ascii := ["t"; "r"; "u"; "e"].
Definition false_text : list ascii := ["f"; "a"; "l"; "s"; "e"].

Definition serialize_number (x : Number.number) : list ascii :=
  match x with
  | Number.NaN | Number.Infinity _ => null_text
  | _ => Number.to_chars x
  end.

(** SerializeJSONProperty: [None] stands for [undefined].  In an array an
    [undefined] element is written [null]; in an object a property whose
    value is [undefined] is left out. *)
Fixpoint serialize (v : value) : option (list ascii) :=
  match v with
  | VUndefined => None
  | VNull => Some null_text
  | VBool b => Some (if b then true_text else false_text)
  | VNum x => Some (serialize_number x)
  | VStr s => Some (quote s)
  | VArr items =>
      Some ("[" :: join (map (fun v => default null_text (serialize v)) items)
                ++ ["]"])
  | VObj props =>
      let members :=
        (fix go (l : list (string * value)) : list (list ascii) :=
           match l with
           | [] => []
           | (k, v) :: l' =>
               match serialize v with
               | Some t => (quote k ++ ":" :: t) :: go l'
               | None => go l'
               end
           end) props in
      Some ("{" :: join members ++ ["}"])
  end.

(** The texts of the items of an array and of the properties of an object,
    as [serialize] joins them. *)
Definition item_texts (items : list value) : list (list ascii) :=
  map (fun v => default null_text (serialize v)) items.

Fixpoint member_texts (props : list (string * value)) : list (list ascii) :=
  match props with
  | [] => []
  | (k, v) :: l' =>
      match serialize v with
      | Some t => (quote k ++ ":" :: t) :: member_texts l'
      | None => member_texts l'
      end
  end.

(** [JSON.stringify(value)]: a string, or [undefined]. *)
Definition stringify (v : value) : value :=
  match serialize v with
  | Some t => VStr (string_of_list_ascii t)
  | None => VUndefined
  end.

(** *** JSON.parse *)

(** Outcome of a parsing function: a result and the text that follows it,
    a syntax error, or recursion budget exhausted. *)
Inductive pres (A : Type) : Type :=
| POk (a : A) (rest : list ascii)
| PErr
| PFuel.
Arguments POk {A} a rest.
Arguments PErr {A}.
Arguments PFuel {A}.

(** JSON white space: TAB, LF, CR and SP. *)
Definition is_ws (c : ascii) : bool :=
  let n := N_of_ascii c in
  (N.eqb n 9 || N.eqb n 10 || N.eqb n 13 || N.eqb n 32)%bool.

Fixpoint skip_ws (cs : list ascii) : list ascii :=
  match cs with
  | c :: cs' => if is_ws c then skip_ws cs' else cs
  | [] => []
  end.

(** A text starts a value when its first character is neither white space
    nor a closing square bracket. *)
Definition starts_value (t : list ascii) : Prop :=
  match t with
  | c :: _ => is_ws c = false /\ Ascii.eqb c "]" = false
  | [] => False
  end.

Definition unescape (c : ascii) : option ascii :=
  if Ascii.eqb c "034" then Some "034"
  else if Ascii.eqb c "\" then Some "\"
  else if Ascii.eqb c "/" then Some "/"
  else if Ascii.eqb c "b" then Some (ascii_of_N 8)
  else if Ascii.eqb c "f" then Some (ascii_of_N 12)
  else if Ascii.eqb c "n" then Some (ascii_of_N 10)
  else if Ascii.eqb c "r" then Some (ascii_of_N 13)
  else if Ascii.eqb c "t" then Some (ascii_of_N 9)
  else None.

(** Value of the four hexadecimal digits of a [\u] escape. *)
Definition hex4 (a b c d : ascii) : option N :=
  Number.radix_value 16 0 [a; b; c; d].

(** The characters of a JSONString after its opening quote, up to the
    closing quote.  Code units above 255 are outside the model: a [\u]
    escape that denotes one is refused. *)
Fixpoint parse_chars (cs : list ascii) : pres (list ascii) :=
  match cs with
  | [] => PErr
  | c :: r =>
      if Ascii.eqb c "034" then POk [] r
      else if Ascii.eqb c "\" then
        match r with
        | e :: r' =>
            if Ascii.eqb e "u" then
              match r' with
              | h1 :: h2 :: h3 :: h4 :: r'' =>
                  match hex4 h1 h2 h3 h4 with
                  | Some n =>
                      if N.ltb n 256 then
                        match parse_chars r'' with
                        | POk s rest => POk (ascii_of_N n :: s) rest
                        | other => other
                        end
                      else PErr
                  | None => PErr
                  end
              | _ => PErr
              end
            else
              match unescape e with
              | Some c' =>
                  match parse_chars r' with
                  | POk s rest => POk (c' :: s) rest
                  | other => other
                  end
              | None => PErr
              end
        | [] => PErr
        end
      else if N.ltb (N_of_ascii c) 32 then PErr
      else
        match parse_chars r with
        | POk s rest => POk (c :: s) rest
        | other => other
        end
  end.

(** JSONNumber: an optional minus sign; an integer part, which is a single
    zero or starts with a digit that is not zero; an optional fraction (a
    dot and at least one digit); an optional exponent part. *)
Definition scan_minus (cs : list ascii) : bool * list ascii :=
  match cs with
  | c :: cs' => if Ascii.eqb c "-" then (true, cs') else (false, cs)
  | [] => (false, cs)
  end.

Definition scan_int (cs : list ascii) : option (list digit * list ascii) :=
  match cs with
  | c :: cs' =>
      if Ascii.eqb c "0" then Some ([d0], cs')
      else match span_digits cs with
           | ([], _) => None
           | (ds, r) => Some (ds, r)
           end
  | [] => None
  end.

Definition scan_fraction (cs : list ascii)
    : option (list digit * list ascii) :=
  match expect "." cs with
  | Some r =>
      match span_digits r with
      | ([], _) => None
      | (fp, r') => Some (fp, r')
      end
  | None => Some ([], cs)
  end.

(** After [e] or [E] the exponent must be complete. *)
Definition scan_json_exponent (cs : list ascii) : option (Z * list ascii) :=
  match cs with
  | c :: _ =>
      if (Ascii.eqb c "e" || Ascii.eqb c "E")%bool then
        let (e, r) := Number.scan_exponent cs in
        if Nat.eqb (length r) (length cs) then None else Some (e, r)
      else Some (0%Z, cs)
  | [] => Some (0%Z, cs)
  end.

Definition parse_number (cs : list ascii) : pres Number.number :=
  let (neg, cs1) := scan_minus cs in
  match scan_int cs1 with
  | None => PErr
  | Some (ip, r1) =>
      match scan_fraction r1 with
      | None => PErr
      | Some (fp, r3) =>
          match scan_json_exponent r3 with
          | None => PErr
          | Some (e, r4) =>
              POk (Number.make neg (ip ++ fp) (Z.of_nat (length ip) + e)) r4
          end
      end
  end.

(** Defining a property that exists keeps its position and replaces its
    value (the last duplicate key wins). *)
Fixpoint define_property (k : string) (v : value)
    (props : list (string * value)) : list (string * value) :=
  match props with
  | [] => [(k, v)]
  | (k', v') :: props' =>
      if String.eqb k k' then (k, v) :: props'
      else (k', v') :: define_property k v props'
  end.

Definition object_of_members (ms : list (string * value)) : value :=
  VObj (fold_left (fun props m => define_property (fst m) (snd m) props)
          ms []).

(** A value that is not an object or an array: a string, one of the three
    literal names, or a number; [c] is its first character and [r] the text
    after it. *)
Definition parse_scalar (c : ascii) (r : list ascii) : pres value :=
  if Ascii.eqb c "034" then
    match parse_chars r with
    | POk s rest => POk (VStr (string_of_list_ascii s)) rest
    | PErr => PErr
    | PFuel => PFuel
    end
  else if Ascii.eqb c "n" then
    match strip_prefix null_text (c :: r) with
    | Some rest => POk VNull rest
    | None => PErr
    end
  else if Ascii.eqb c "t" then
    match strip_prefix true_text (c :: r) with
    | Some rest => POk (VBool true) rest
    | None => PErr
    end
  else if Ascii.eqb c "f" then
    match strip_prefix false_text (c :: r) with
    | Some rest => POk (VBool false) rest
    | None => PErr
    end
  else
    match parse_number (c :: r) with
    | POk x rest => POk (VNum x) rest
    | PErr => PErr
    | PFuel => PFuel
    end.

Fixpoint parse_value (fuel : nat) (cs : list ascii) : pres value :=
  match fuel with
  | O => PFuel
  | S fuel' =>
      match skip_ws cs with
      | [] => PErr
      | c :: r =>
          if Ascii.eqb c "{" then
            match expect "}" (skip_ws r) with
            | Some r' => POk (VObj []) r'
            | None =>
                match parse_members fuel' (skip_ws r) with
                | POk ms rest => POk (object_of_members ms) rest
                | PErr => PErr
                | PFuel => PFuel
                end
            end
          else if Ascii.eqb c "[" then
            match expect "]" (skip_ws r) with
            | Some r' => POk (VArr []) r'
            | None =>
                match parse_elements fuel' (skip_ws r) with
                | POk vs rest => POk (VArr vs) rest
                | PErr => PErr
                | PFuel => PFuel
                end
            end
          else parse_scalar c r
      end
  end
with parse_elements (fuel : nat) (cs : list ascii) : pres (list value) :=
  match fuel with
  | O => PFuel
  | S fuel' =>
      match parse_value fuel' cs with
      | POk v r =>
          match expect "," (skip_ws r) with
          | Some r' =>
              match parse_elements fuel' r' with
              | POk vs rest => POk (v :: vs) rest
              | other => other
              end
          | None =>
              match expect "]" (skip_ws r) with
              | Some r' => POk [v] r'
              | None => PErr
              end
          end
      | PErr => PErr
      | PFuel => PFuel
      end
  end
with parse_members (fuel : nat) (cs : list ascii)
    : pres (list (string * value)) :=
  match fuel with
  | O => PFuel
  | S fuel' =>
      match expect "034" (skip_ws cs) with
      | Some r0 =>
          match parse_chars r0 with
          | POk k r1 =>
              match expect ":" (skip_ws r1) with
              | Some r2 =>
                  match parse_value fuel' r2 with
                  | POk v r3 =>
                      let m := (string_of_list_ascii k, v) in
                      match expect "," (skip_ws r3) with
                      | Some r4 =>
                          match parse_members fuel' r4 with
                          | POk ms rest => POk (m :: ms) rest
                          | other => other
                          end
                      | None =>
                          match expect "}" (skip_ws r3) with
                          | Some r4 => POk [m] r4
                          | None => PErr
                          end
                      end
                  | PErr => PErr
                  | PFuel => PFuel
                  end
              | None => PErr
              end
          | PErr => PErr
          | PFuel => PFuel
          end
      | None => PErr
      end
  end.

(** [JSON.parse(text)]: the value of a text that is one JSON value between
    optional white space; a SyntaxError otherwise.  The budget is more than
    the recursion needs ([parse_value_fuel]). *)
Definition parse (s : string) : result value :=
  let cs := list_ascii_of_string s in
  match parse_value (2 * length cs + 2) cs with
  | POk v rest =>
      match skip_ws rest with
      | [] => Ok v
      | _ => Throw SyntaxError
      end
  | _ => Throw SyntaxError
  end.

End JSON.

(* ===================================================================== *)
(** ** The underlying store *)
(* ===================================================================== *)

(** [AsyncStorage] is an external service.  It is modelled by its documented
    contract: a map from string keys to string values, read and written by the
    primitives below.  Every primitive call is recorded, with its arguments as
    the facade passed them, so that what reaches the store can be stated.  A
    promise is its eventual outcome: a value, or a rejection.  The optional
    completion callbacks are left out. *)
Module AsyncStorage.

Inductive call : Type :=
| CGetItem (key : string)
| CSetItem (key : string) (v : value)
| CRemoveItem (key : string)
| CMergeItem (key : string) (v : value)
| CMultiGet (keys : list string)
| CMultiSet (pairs : list (string * value))
| CMultiMerge (pairs : list (string * value))
| CMultiRemove (keys : list string)
| CGetAllKeys
| CClear
| CFlushGetRequests.

Record store : Type := mkStore {
  entries : gmap string string;
  calls : list call
}.

Definition empty : store := mkStore ∅ [].

(** An asynchronous operation: from a store to an outcome and the store
    that results. *)
Definition M (A : Type) : Type := store -> result A * store.

Definition ret {A} (a : A) : M A := fun st => (Ok a, st).

Definition raise {A} (e : error) : M A := fun st => (Throw e, st).

Definition bind {A B} (m : M A) (k : A -> M B) : M B :=
  fun st =>
    match m st with
    | (Ok a, st') => k a st'
    | (Throw e, st') => (Throw e, st')
    end.

Definition lift {A} (r : result A) : M A := fun st => (r, st).

Definition record (c : call) : M unit :=
  fun st => (Ok tt, mkStore (entries st) (calls st ++ [c])).

Definition update (f : gmap string string -> gmap string string) : M unit :=
  fun st => (Ok tt, mkStore (f (entries st)) (calls st)).

Definition read {A} (f : gmap string string -> A) : M A :=
  fun st => (Ok (f (entries st)), st).

Definition not_a_string : error := StoreError "value is not a string".

(** The strings of a batch, when every value of the batch is a string. *)
Fixpoint raw_pairs (pairs : list (string * value))
    : option (list (string * string)) :=
  match pairs with
  | [] => Some []
  | (k, VStr s) :: rest =>
      match raw_pairs rest with
      | Some l => Some ((k, s) :: l)
      | None => None
      end
  | _ :: _ => None
  end.

(** Merge of two stored texts: when both are JSON objects, the properties
    of the incoming object are defined over the existing ones.  What the
    store does with a text that is not a JSON object is outside the code of
    the facade; here the incoming text replaces the existing one, and no
    property below depends on that case. *)
Definition merge_raw (old : option string) (new : string) : string :=
  match old with
  | None => new
  | Some o =>
      match JSON.parse o, JSON.parse new with
      | Ok (VObj a), Ok (VObj b) =>
          match JSON.stringify
                  (VObj (fold_left
                           (fun props m =>
                              JSON.define_property (fst m) (snd m) props)
                           b a)) with
          | VStr s => s
          | _ => new
          end
      | _, _ => new
      end
  end.

Definition getItem (key : string) : M (option string) :=
  bind (record (CGetItem key)) (fun _ => read (fun m => m !! key)).

Definition setItem (key : string) (v : value) : M unit :=
  bind (record (CSetItem key v)) (fun _ =>
    match v with
    | VStr s => update (fun m => <[key := s]> m)
    | _ => raise not_a_string
    end).

Definition removeItem (key : string) : M unit :=
  bind (record (CRemoveItem key)) (fun _ => update (fun m => delete key m)).

Definition mergeItem (key : string) (v : value) : M unit :=
  bind (record (CMergeItem key v)) (fun _ =>
    match v with
    | VStr s => update (fun m => <[key := merge_raw (m !! key) s]> m)
    | _ => raise not_a_string
    end).

Definition multiGet (keys : list string)
    : M (list (string * option string)) :=
  bind (record (CMultiGet keys)) (fun _ =>
    read (fun m => map (fun k => (k, m !! k)) keys)).

Definition multiSet (pairs : list (string * value)) : M unit :=
  bind (record (CMultiSet pairs)) (fun _ =>
    match raw_pairs pairs with
    | Some l =>
        update (fun m => fold_left (fun m p => <[fst p := snd p]> m) l m)
    | None => raise not_a_string
    end).

Definition multiMerge (pairs : list (string * value)) : M unit :=
  bind (record (CMultiMerge pairs)) (fun _ =>
    match raw_pairs pairs with
    | Some l =>
        update (fun m =>
          fold_left
            (fun m p => <[fst p := merge_raw (m !! fst p) (snd p)]> m) l m)
    | None => raise not_a_string
    end).

Definition multiRemove (keys : list string) : M unit :=
  bind (record (CMultiRemove keys)) (fun _ =>
    update (fun m => fold_left (fun m k => delete k m) keys m)).

Definition getAllKeys : M (list string) :=
  bind (record CGetAllKeys) (fun _ =>
    read (fun m => map fst (map_to_list m))).

Definition clear : M unit :=
  bind (record CClear) (fun _ => update (fun _ => ∅)).

Definition flushGetRequests : M unit := record CFlushGetRequests.


End AsyncStorage.

Declare Scope async_scope.
Delimit Scope async_scope with async.
Notation "x <- c ;; k" := (AsyncStorage.bind c (fun x => k))
  (at level 100, c at next level, right associativity) : async_scope.
Notation "c ;; k" := (AsyncStorage.bind c (fun _ => k))
  (at level 100, right associativity) : async_scope.

(* ===================================================================== *)
(** ** ValueParser *)
(* ===================================================================== *)

Module ValueParser.

(** [stringify]: a string is returned as it is, any other value goes
    through [JSON.stringify]. *)
Definition stringify (v : value) : value :=
  if type_tag_eqb (typeof v) TString then v
  else JSON.stringify v.

(** [parsed == value], a number compared with a string under loose
    equality: the string is converted to a number. *)
Definition loose_equal (parsed : Number.number) (s : string) : bool :=
  Number.equal parsed (Number.of_string s).

(** [isNumber] *)
Definition isNumber (s : string) : bool :=
  let parsed := Number.parseFloat s in
  if (negb (Number.isNaN parsed) && loose_equal parsed s)%bool
  then true
  else false.

(** [value[i]]: the character at an index, [undefined] out of range. *)
Definition char_at (s : string) (i : Z) : option ascii :=
  if Z.ltb i 0 then None else String.get (Z.to_nat i) s.

Definition is_char (c : option ascii) (a : ascii) : bool :=
  match c with
  | Some b => Ascii.eqb b a
  | None => false
  end.

(** [isJSON] *)
Definition isJSON (s : string) : bool :=
  let first := char_at s 0 in
  let last := char_at s (Z.of_nat (String.length s) - 1) in
  if (is_char first "{" && is_char last "}")%bool then true
  else if (is_char first "[" && is_char last "]")%bool then true
  else false.

(** [parseValue] *)
Definition parseValue (v : value) : result value :=
  match v with
  | VStr s =>
      if isNumber s then Ok (VNum (Number.parseFloat s))
      else if isJSON s then JSON.parse s
      else Ok v
  | _ => Ok v
  end.

Definition invalid_argument : error :=
  Error "AsyncStorage.mergeItem expects a JSON valid value".

(** [validateJSON] *)
Definition validateJSON (v : value) : result unit :=
  if (negb (truthy v) || negb (type_tag_eqb (typeof v) TObject))%bool
  then Throw invalid_argument
  else Ok tt.

End ValueParser.

(* ===================================================================== *)
(** ** TypeSafeStorage *)
(* ===================================================================== *)

(** The schema [T] only constrains which calls compile; it has no run-time
    presence.  Keys are strings and values are JavaScript values. *)
Module TypeSafeStorage.

Local Open Scope async_scope.

Definition M := AsyncStorage.M.

(** [stringify] (private) *)
Definition stringify (v : value) : value :=
  if type_tag_eqb (typeof v) TString then v
  else JSON.stringify v.

Definition clear : M unit := AsyncStorage.clear.

Definition flushGetRequests : M unit := AsyncStorage.flushGetRequests.

Definition getAllKeys : M (list string) := AsyncStorage.getAllKeys.

(** [value === null ? null : JSON.parse(value)] *)
Definition parse_raw (raw : option string) : result value :=
  match raw with
  | None => Ok VNull
  | Some s => JSON.parse s
  end.

Definition getItem (key : string) : M value :=
  value <- AsyncStorage.getItem key ;;
  AsyncStorage.lift (parse_raw value).

Definition mergeItem (key : string) (v : value) : M unit :=
  AsyncStorage.mergeItem key (JSON.stringify v).

(** [values.map(([key, value]) => [key, ...])]: the pairs are mapped in
    order; the first text that does not parse throws. *)
Fixpoint parse_pairs (values : list (string * option string))
    : result (list (string * value)) :=
  match values with
  | [] => Ok []
  | (key, raw) :: rest =>
      match parse_raw raw with
      | Ok v =>
          match parse_pairs rest with
          | Ok l => Ok ((key, v) :: l)
          | Throw e => Throw e
          end
      | Throw e => Throw e
      end
  end.

Definition multiGet (keys : list string) : M (list (string * value)) :=
  values <- AsyncStorage.multiGet keys ;;
  AsyncStorage.lift (parse_pairs values).

Definition multiMerge (keyValuePairs : list (string * value)) : M unit :=
  AsyncStorage.multiMerge
    (map (fun p => (fst p, stringify (snd p))) keyValuePairs).

Definition multiRemove (keys : list string) : M unit :=
  AsyncStorage.multiRemove keys.

Definition multiSet (keyValuePairs : list (string * value)) : M unit :=
  AsyncStorage.multiSet
    (map (fun p => (fst p, stringify (snd p))) keyValuePairs).

Definition removeItem (key : string) : M unit :=
  AsyncStorage.removeItem key.

Definition setItem (key : string) (v : value) : M unit :=
  AsyncStorage.setItem key (stringify v).

End TypeSafeStorage.

(* ===================================================================== *)
(** ** Definitions used to state the properties *)
(* ===================================================================== *)

Local Open Scope string_scope.

(** Sequencing of computations that may throw. *)
Definition and_then {A B} (r : result A) (k : A -> result B) : result B :=
  match r with
  | Ok a => k a
  | Throw e => Throw e
  end.

(** The facade writes a text for [v] that [JSON.parse] reads back as [v]. *)
Definition reads_back (v : value) : Prop :=
  match TypeSafeStorage.stringify v with
  | VStr s => JSON.parse s = Ok v
  | _ => False
  end.

(** The numbers JSON denotes and gives back: the finite numbers in canonical
    form, but for the negative zero, which is written [0]. *)
Definition number_representable (x : Number.number) : Prop :=
  match x with
  | Number.Finite _ _ _ => Number.wf x
  | Number.Zero neg => neg = false
  | _ => False
  end.

(** The JSON-representable values: no [undefined], representable numbers,
    and objects without a repeated key. *)
Fixpoint representable (v : value) : Prop :=
  match v with
  | VUndefined => False
  | VNull | VBool _ | VStr _ => True
  | VNum x => number_representable x
  | VArr items =>
      (fix all (l : list value) : Prop :=
         match l with
         | [] => True
         | v :: l' => representable v /\ all l'
         end) items
  | VObj props =>
      NoDup (map fst props)
      /\ (fix all (l : list (string * value)) : Prop :=
            match l with
            | [] => True
            | p :: l' => representable (snd p) /\ all l'
            end) props
  end.

(** [v] is written as a text that starts a value and that [parse_value]
    reads back as [v], whatever text that cannot continue a number
    follows. *)
Definition parses_back (v : value) : Prop :=
  exists t,
    JSON.serialize v = Some t
    /\ JSON.starts_value t
    /\ forall rest, Number.stops_number rest ->
         exists fuel, JSON.parse_value fuel (t ++ rest)%list = JSON.POk v rest.

(** Outcome and final store of an operation. *)
Definition outcome {A} (m : AsyncStorage.M A) (st : AsyncStorage.store)
  : result A := fst (m st).

Definition final {A} (m : AsyncStorage.M A) (st : AsyncStorage.store)
  : AsyncStorage.store := snd (m st).


(** The entries of the store after an operation. *)
Definition entries_after {A} (m : AsyncStorage.M A)
    (st : AsyncStorage.store) : gmap string string :=
  AsyncStorage.entries (final m st).

(** One operation per element of a list, in order, stopping at the first
    that fails: [for (const x of l) await f(x)]. *)
Fixpoint for_each {A} (f : A -> AsyncStorage.M unit) (l : list A)
    : AsyncStorage.M unit :=
  match l with
  | [] => AsyncStorage.ret tt
  | x :: l' => AsyncStorage.bind (f x) (fun _ => for_each f l')
  end.

(** The text the facade writes for a value (the empty text when
    [stringify] gives [undefined]). *)
Definition text_of (v : value) : string :=
  match TypeSafeStorage.stringify v with
  | VStr s => s
  | _ => EmptyString
  end.

(** A value the facade reads back as written: JSON-representable and not a
    string. *)
Definition storable (v : value) : Prop :=
  representable v /\ typeof v <> TString.

(* ===================================================================== *)
(** ** Numbers and their text *)
(* ===================================================================== *)

Section NumberText.

Import Number.

Local Open Scope char_scope.
Local Open Scope list_scope.

Implicit Types (d : digit) (ds : list digit) (cs rest : list ascii).

Lemma digit_of_ascii_of_digit d : digit_of_ascii (ascii_of_digit d) = Some d.
Proof. destruct d; reflexivity. Qed.

Lemma is_zero_true d : is_zero d = true <-> d = d0.
Proof. destruct d; simpl; split; congruence. Qed.

Lemma is_zero_false d : is_zero d = false <-> d <> d0.
Proof. destruct d; simpl; split; congruence. Qed.

Lemma uint_of_digits_of_uint (u : uint) :
  uint_of_digits (digits_of_uint u) = u.
Proof. induction u; simpl; congruence. Qed.

Lemma N_of_digits_of_N (m : N) : N_of_digits (digits_of_N m) = m.
Proof.
  unfold N_of_digits, digits_of_N. rewrite uint_of_digits_of_uint.
  apply DecimalN.Unsigned.of_to.
Qed.

Lemma digits_of_uint_nil (u : uint) : digits_of_uint u = [] -> u = Nil.
Proof. destruct u; simpl; congruence. Qed.

Lemma digits_of_N_nonnil (m : N) : digits_of_N m <> [].
Proof.
  unfold digits_of_N. intros H. apply digits_of_uint_nil in H.
  destruct m as [|p]; simpl in H; [discriminate|].
  exact (DecimalPos.Unsigned.to_uint_nonnil p H).
Qed.

(** *** Scanning a run of digits *)

Lemma span_digits_app ds rest :
  span_digits (chars_of_digits ds ++ rest)
  = (ds ++ fst (span_digits rest), snd (span_digits rest)).
Proof.
  unfold chars_of_digits. induction ds as [|d ds IH]; simpl.
  - destruct (span_digits rest); reflexivity.
  - rewrite digit_of_ascii_of_digit, IH. reflexivity.
Qed.

Lemma span_digits_stop rest : stops_digits rest -> span_digits rest = ([], rest).
Proof.
  destruct rest as [|c r]; simpl; [reflexivity|]. intros ->. reflexivity.
Qed.

Lemma span_digits_chars ds rest :
  stops_digits rest ->
  span_digits (chars_of_digits ds ++ rest) = (ds, rest).
Proof.
  intros H. rewrite span_digits_app, (span_digits_stop rest H). simpl.
  rewrite app_nil_r. reflexivity.
Qed.

Lemma zeros_chars (j : nat) : zeros j = chars_of_digits (repeat d0 j).
Proof.
  unfold zeros, chars_of_digits. induction j; simpl; congruence.
Qed.

(** *** Leading and trailing zeros *)

Lemma drop_zeros_repeat (j : nat) ds :
  drop_zeros (repeat d0 j ++ ds) = drop_zeros ds.
Proof. induction j; simpl; auto. Qed.

Lemma count_zeros_repeat (j : nat) ds :
  count_zeros (repeat d0 j ++ ds) = j + count_zeros ds.
Proof. induction j; simpl; auto. Qed.

Lemma drop_zeros_head ds :
  ds <> [] -> List.hd d1 ds <> d0 -> drop_zeros ds = ds /\ count_zeros ds = 0.
Proof.
  destruct ds as [|d ds]; [congruence|]. simpl. intros _ H.
  apply is_zero_false in H. rewrite H. auto.
Qed.

Lemma last_rev_hd ds : List.hd d1 (rev ds) = List.last ds d1.
Proof.
  induction ds as [|d ds IH] using rev_ind; [reflexivity|].
  rewrite rev_app_distr, last_last. reflexivity.
Qed.

Lemma drop_trailing_zeros_repeat ds (j : nat) :
  ds <> [] -> List.last ds d1 <> d0 ->
  drop_trailing_zeros (ds ++ repeat d0 j) = ds.
Proof.
  intros Hne Hl. unfold drop_trailing_zeros.
  rewrite rev_app_distr, rev_repeat, drop_zeros_repeat.
  destruct (drop_zeros_head (rev ds)) as [-> _].
  - intros E. apply (f_equal (@rev digit)) in E.
    rewrite rev_involutive in E. exact (Hne E).
  - rewrite last_rev_hd. exact Hl.
  - apply rev_involutive.
Qed.

(** [make] undoes the padding of a canonical digit sequence with zeros on
    either side. *)
Lemma make_padded (neg : bool) ds (i j : nat) (m : Z) :
  ds <> [] -> List.hd d1 ds <> d0 -> List.last ds d1 <> d0 ->
  make neg (repeat d0 i ++ ds ++ repeat d0 j) m
  = Finite neg ds (m - Z.of_nat i).
Proof.
  intros Hne Hh Hl. unfold make.
  rewrite drop_zeros_repeat, count_zeros_repeat.
  assert (Hne' : ds ++ repeat d0 j <> [])
    by (destruct ds; [congruence|discriminate]).
  assert (Hh' : List.hd d1 (ds ++ repeat d0 j) <> d0)
    by (destruct ds; [congruence|exact Hh]).
  destruct (drop_zeros_head _ Hne' Hh') as [-> ->].
  rewrite (drop_trailing_zeros_repeat ds j Hne Hl).
  destruct ds as [|d ds']; [congruence|].
  rewrite Nat.add_0_r. reflexivity.
Qed.

(** *** Reading back the text of a number *)

Lemma stops_number_digits rest : stops_number rest -> stops_digits rest.
Proof. destruct rest; simpl; tauto. Qed.

Lemma scan_exponent_stop rest :
  stops_number rest -> scan_exponent rest = (0%Z, rest).
Proof.
  destruct rest as [|c r]; simpl; [reflexivity|].
  intros (_ & _ & -> & ->). reflexivity.
Qed.

Lemma expect_dot_stop rest : stops_number rest -> expect "." rest = None.
Proof.
  destruct rest as [|c r]; simpl; [reflexivity|].
  intros (_ & -> & _). reflexivity.
Qed.

Lemma scan_exponent_text (e : Z) rest :
  stops_digits rest ->
  scan_exponent (exponent_text e ++ rest) = (e, rest).
Proof.
  intros H. unfold exponent_text, scan_exponent.
  cbn [app Ascii.eqb Bool.eqb orb].
  assert (E : span_digits
                (chars_of_digits (digits_of_N (Z.abs_N e)) ++ rest)
              = (digits_of_N (Z.abs_N e), rest))
    by (apply span_digits_chars; exact H).
  pose proof (digits_of_N_nonnil (Z.abs_N e)) as Hn.
  destruct (Z.ltb e 0) eqn:El; cbn [scan_sign Ascii.eqb Bool.eqb andb];
    rewrite E; destruct (digits_of_N (Z.abs_N e)) as [|d ds] eqn:Ed;
    try congruence; rewrite <- Ed, N_of_digits_of_N; f_equal.
  - apply Z.ltb_lt in El. rewrite N2Z.inj_abs_N. lia.
  - apply Z.ltb_ge in El. rewrite N2Z.inj_abs_N. lia.
Qed.

Lemma strip_infinity_digit d rest :
  strip_prefix infinity_text (ascii_of_digit d :: rest) = None.
Proof. destruct d; reflexivity. Qed.

Lemma scan_tail_exponent (e : option Z) rest :
  stops_number rest ->
  scan_exponent
    (match e with Some x => exponent_text x | None => [] end ++ rest)
  = (default 0%Z e, rest).
Proof.
  intros H. destruct e as [x|]; simpl default.
  - apply scan_exponent_text, stops_number_digits, H.
  - apply scan_exponent_stop, H.
Qed.

Lemma stops_digits_exponent (e : option Z) rest :
  stops_number rest ->
  stops_digits
    (match e with Some x => exponent_text x | None => [] end ++ rest).
Proof.
  intros H. destruct e; [exact eq_refl|]. apply stops_number_digits, H.
Qed.

Lemma expect_dot_exponent (e : option Z) rest :
  stops_number rest ->
  expect "."
    (match e with Some x => exponent_text x | None => [] end ++ rest)
  = None.
Proof.
  intros H. destruct e; [reflexivity|]. apply expect_dot_stop, H.
Qed.

Lemma scan_unsigned_literal (neg : bool) d ip fp e rest :
  stops_number rest ->
  scan_unsigned neg (literal_text (d :: ip) fp e ++ rest)
  = Some (make neg ((d :: ip) ++ default [] fp)
            (Z.of_nat (length (d :: ip)) + default 0%Z e), rest).
Proof.
  intros H. unfold scan_unsigned.
  assert (strip_prefix infinity_text (literal_text (d :: ip) fp e ++ rest)
          = None) as ->
    by (unfold literal_text; cbn [chars_of_digits map app];
        apply strip_infinity_digit).
  unfold literal_text. rewrite <- !app_assoc.
  destruct fp as [f|]; cbn [default].
  - rewrite span_digits_chars by exact eq_refl.
    cbn [app expect Ascii.eqb Bool.eqb andb].
    rewrite span_digits_chars by (apply stops_digits_exponent, H).
    rewrite (scan_tail_exponent e rest H). reflexivity.
  - cbn [app].
    rewrite span_digits_chars by (apply stops_digits_exponent, H).
    rewrite (expect_dot_exponent e rest H), (scan_tail_exponent e rest H).
    rewrite app_nil_r. reflexivity.
Qed.

(** [Number::toString] writes a decimal literal, of the shape JSON accepts:
    an integer part without leading zero unless it is the digit zero alone,
    and a fraction, when there is one, that is not empty. *)
Lemma to_chars_unsigned_literal ds (n : Z) :
  ds <> [] -> List.hd d1 ds <> d0 ->
  exists d ip fp e (i j : nat),
    to_chars_unsigned ds n = literal_text (d :: ip) fp e
    /\ (d :: ip) ++ default [] fp = repeat d0 i ++ ds ++ repeat d0 j
    /\ (Z.of_nat (length (d :: ip)) + default 0%Z e - Z.of_nat i = n)%Z
    /\ (d <> d0 \/ ip = [])
    /\ fp <> Some [].
Proof.
  intros Hne Hh. destruct ds as [|d ds]; [congruence|]. clear Hne.
  simpl in Hh. unfold to_chars_unsigned.
  destruct (Z.leb _ n && Z.leb n 21)%bool eqn:C1.
  { apply andb_true_iff in C1 as [C1 C1']. apply Z.leb_le in C1, C1'.
    exists d, (ds ++ repeat d0 (Z.to_nat (n - Z.of_nat (length (d :: ds))))),
      None, None, 0, (Z.to_nat (n - Z.of_nat (length (d :: ds)))).
    split; [|split; [|split; [|split]]].
    - unfold literal_text. rewrite zeros_chars, !app_nil_r.
      unfold chars_of_digits. rewrite <- map_app. reflexivity.
    - cbn [default repeat app]. rewrite app_nil_r. reflexivity.
    - cbn [default length] in *. rewrite length_app, repeat_length. lia.
    - left. exact Hh.
    - discriminate. }
  destruct (Z.ltb 0 n && Z.leb n 21)%bool eqn:C2.
  { apply andb_true_iff in C2 as [C2 C2']. apply Z.ltb_lt in C2.
    apply Z.leb_le in C2'.
    apply andb_false_iff in C1 as [C1|C1]; apply Z.leb_gt in C1; [|lia].
    destruct (Z.to_nat n) as [|n'] eqn:En; [lia|].
    exists d, (firstn n' ds), (Some (skipn n' ds)), None, 0, 0.
    split; [|split; [|split; [|split]]].
    - unfold literal_text. cbn [firstn skipn]. rewrite app_nil_r.
      reflexivity.
    - cbn [default repeat app]. rewrite app_nil_r, firstn_skipn.
      reflexivity.
    - cbn [default length] in *.
      rewrite firstn_length_le by lia. lia.
    - left. exact Hh.
    - intros [= E]. apply (f_equal (@length digit)) in E.
      rewrite length_skipn in E. cbn [length] in *. lia. }
  destruct (Z.ltb (-6) n && Z.leb n 0)%bool eqn:C3.
  { apply andb_true_iff in C3 as [C3 C3']. apply Z.ltb_lt in C3.
    apply Z.leb_le in C3'.
    exists d0, [], (Some (repeat d0 (Z.to_nat (- n)) ++ d :: ds)), None,
      (S (Z.to_nat (- n))), 0.
    split; [|split; [|split; [|split]]].
    - unfold literal_text. rewrite zeros_chars, app_nil_r.
      unfold chars_of_digits. rewrite <- map_app. reflexivity.
    - cbn [default repeat app]. rewrite app_nil_r. reflexivity.
    - cbv [default from_option id]. cbn [length]. lia.
    - right. reflexivity.
    - intros [= E]. apply (f_equal (@length digit)) in E.
      rewrite length_app in E. simpl in E. lia. }
  destruct ds as [|d' ds'].
  - exists d, [], None, (Some (n - 1)%Z), 0, 0.
    split; [|split; [|split; [|split]]].
    + reflexivity.
    + reflexivity.
    + cbv [default from_option id]. cbn [length]. lia.
    + left. exact Hh.
    + discriminate.
  - exists d, [], (Some (d' :: ds')), (Some (n - 1)%Z), 0, 0.
    split; [|split; [|split; [|split]]].
    + reflexivity.
    + cbn [default repeat app]. rewrite app_nil_r. reflexivity.
    + cbv [default from_option id]. cbn [length]. lia.
    + left. exact Hh.
    + discriminate.
Qed.

Lemma to_chars_unsigned_head ds (n : Z) :
  ds <> [] -> List.hd d1 ds <> d0 ->
  exists d r, to_chars_unsigned ds n = ascii_of_digit d :: r.
Proof.
  intros Hne Hh.
  destruct (to_chars_unsigned_literal ds n Hne Hh)
    as (d & ip & fp & e & _ & _ & -> & _).
  unfold literal_text. simpl. eauto.
Qed.

(** The text [Number::toString] writes for a canonical finite number is
    read back as that number. *)
Lemma scan_unsigned_to_chars (neg : bool) ds (n : Z) rest :
  ds <> [] -> List.hd d1 ds <> d0 -> List.last ds d1 <> d0 ->
  stops_number rest ->
  scan_unsigned neg (to_chars_unsigned ds n ++ rest)
  = Some (Finite neg ds n, rest).
Proof.
  intros Hne Hh Hl Hrest.
  destruct (to_chars_unsigned_literal ds n Hne Hh)
    as (d & ip & fp & e & i & j & -> & Hd & Hn & _).
  rewrite (scan_unsigned_literal neg d ip fp e rest Hrest).
  rewrite Hd, (make_padded neg ds i j _ Hne Hh Hl), Hn. reflexivity.
Qed.

(** *** White space *)

Lemma trim_start_no_space cs : no_space cs -> trim_start cs = cs.
Proof.
  destruct 1 as [|c r Hc _]; simpl; [reflexivity|]. rewrite Hc. reflexivity.
Qed.

Lemma trim_no_space cs : no_space cs -> trim cs = cs.
Proof.
  intros H. unfold trim, trim_end. rewrite (trim_start_no_space cs H).
  rewrite trim_start_no_space; [apply rev_involutive|].
  apply Forall_rev, H.
Qed.

Lemma no_space_digits ds : no_space (chars_of_digits ds).
Proof.
  unfold no_space, chars_of_digits. apply Forall_map, Forall_forall.
  intros d _. destruct d; reflexivity.
Qed.

Lemma no_space_exponent (e : Z) : no_space (exponent_text e).
Proof.
  unfold exponent_text. constructor; [reflexivity|].
  constructor; [destruct (Z.ltb e 0); reflexivity|]. apply no_space_digits.
Qed.

Lemma no_space_literal ip fp e : no_space (literal_text ip fp e).
Proof.
  unfold literal_text, no_space. rewrite !Forall_app. split; [|split].
  - apply no_space_digits.
  - destruct fp; [|constructor].
    constructor; [reflexivity|apply no_space_digits].
  - destruct e; [apply no_space_exponent|constructor].
Qed.

Lemma no_space_to_chars (x : number) : wf x -> no_space (to_chars x).
Proof.
  destruct x as [|neg|neg|neg ds n]; simpl.
  - repeat constructor.
  - destruct neg; repeat constructor.
  - repeat constructor.
  - intros (Hne & Hh & _). apply Forall_app.
    split; [destruct neg; repeat constructor|].
    destruct (to_chars_unsigned_literal ds n Hne Hh)
      as (d' & ip & fp & e & _ & _ & -> & _).
    apply no_space_literal.
Qed.

(** *** Canonical forms *)

Lemma drop_zeros_hd ds d r : drop_zeros ds = d :: r -> d <> d0.
Proof.
  induction ds as [|a ds IH]; simpl; [discriminate|].
  destruct (is_zero a) eqn:E; [exact IH|].
  intros [= -> _]. apply is_zero_false, E.
Qed.

Lemma drop_zeros_split ds :
  ds = repeat d0 (count_zeros ds) ++ drop_zeros ds.
Proof.
  induction ds as [|a ds IH]; simpl; [reflexivity|].
  destruct (is_zero a) eqn:E; [|reflexivity].
  apply is_zero_true in E. subst a. simpl. f_equal. exact IH.
Qed.

Lemma drop_trailing_zeros_split ds :
  exists j, ds = drop_trailing_zeros ds ++ repeat d0 j.
Proof.
  exists (count_zeros (rev ds)). unfold drop_trailing_zeros.
  rewrite <- rev_repeat, <- rev_app_distr, <- drop_zeros_split.
  symmetry. apply rev_involutive.
Qed.

Lemma drop_trailing_zeros_last ds d r :
  drop_trailing_zeros ds = d :: r -> List.last (d :: r) d1 <> d0.
Proof.
  unfold drop_trailing_zeros. intros H. rewrite <- H, <- last_rev_hd.
  rewrite rev_involutive.
  destruct (drop_zeros (rev ds)) as [|a l] eqn:E; [discriminate|].
  simpl. exact (drop_zeros_hd _ _ _ E).
Qed.

Lemma make_wf (neg : bool) ds (n : Z) : wf (make neg ds n).
Proof.
  unfold make.
  destruct (drop_trailing_zeros (drop_zeros ds)) as [|d r] eqn:E;
    [exact I|].
  split; [discriminate|]. split.
  - simpl. destruct (drop_trailing_zeros_split (drop_zeros ds)) as [j Hj].
    rewrite E in Hj. simpl in Hj. exact (drop_zeros_hd _ _ _ Hj).
  - exact (drop_trailing_zeros_last _ _ _ E).
Qed.

Lemma scan_unsigned_wf (neg : bool) cs x rest :
  scan_unsigned neg cs = Some (x, rest) -> wf x.
Proof.
  unfold scan_unsigned.
  destruct (strip_prefix infinity_text cs); [intros [= <- _]; exact I|].
  destruct (span_digits cs) as [ip r1].
  destruct (expect "." r1) as [r2|].
  - destruct (span_digits r2) as [fp r3].
    destruct (scan_exponent r3) as [e r4].
    destruct ip, fp; try discriminate; intros [= <- _]; apply make_wf.
  - destruct (scan_exponent r1) as [e r4].
    destruct ip; try discriminate; intros [= <- _]; apply make_wf.
Qed.

Lemma scan_decimal_wf cs x rest :
  scan_decimal cs = Some (x, rest) -> wf x.
Proof.
  unfold scan_decimal. destruct cs as [|c cs']; [discriminate|].
  destruct (Ascii.eqb c "-"); [apply scan_unsigned_wf|].
  destruct (Ascii.eqb c "+"); apply scan_unsigned_wf.
Qed.

Lemma parseFloat_wf (s : string) : wf (parseFloat s).
Proof.
  unfold parseFloat.
  destruct (scan_decimal _) as [[x r]|] eqn:E; [|exact I].
  exact (scan_decimal_wf _ _ _ E).
Qed.

(** *** [toString] followed by a conversion back *)

Lemma scan_decimal_to_chars (x : number) :
  wf x -> x <> NaN ->
  scan_decimal (to_chars x) = Some (match x with
                                    | Zero _ => Zero false
                                    | _ => x
                                    end, []).
Proof.
  destruct x as [|neg|neg|neg ds n]; intros Hwf Hx.
  - congruence.
  - destruct neg; reflexivity.
  - reflexivity.
  - destruct Hwf as (Hne & Hh & Hl).
    pose proof (scan_unsigned_to_chars neg ds n [] Hne Hh Hl I) as E.
    rewrite app_nil_r in E.
    destruct neg; simpl; [exact E|].
    destruct (to_chars_unsigned_head ds n Hne Hh) as (d & r & Ed).
    rewrite Ed in E |- *. unfold scan_decimal.
    destruct d; exact E.
Qed.

Lemma to_chars_nonnil (x : number) : wf x -> to_chars x <> [].
Proof.
  destruct x as [|neg|neg|neg ds n]; simpl; try destruct neg;
    try discriminate; intros (Hne & Hh & _);
    destruct (to_chars_unsigned_head ds n Hne Hh) as (a & r & ->);
    discriminate.
Qed.

Lemma of_string_to_string (x : number) :
  wf x -> x <> NaN -> of_string (to_string x) = unsigned_zero x.
Proof.
  intros Hwf Hx. unfold of_string, to_string.
  rewrite list_ascii_of_string_of_list_ascii.
  rewrite (trim_no_space _ (no_space_to_chars x Hwf)).
  pose proof (scan_decimal_to_chars x Hwf Hx) as S.
  pose proof (to_chars_nonnil x Hwf) as Hn.
  destruct (to_chars x) as [|c r]; [congruence|].
  rewrite S. destruct x; reflexivity.
Qed.

Lemma parseFloat_to_string (x : number) :
  wf x -> x <> NaN -> parseFloat (to_string x) = unsigned_zero x.
Proof.
  intros Hwf Hx. unfold parseFloat, to_string.
  rewrite list_ascii_of_string_of_list_ascii.
  rewrite (trim_start_no_space _ (no_space_to_chars x Hwf)).
  rewrite (scan_decimal_to_chars x Hwf Hx).
  destruct x; reflexivity.
Qed.

Lemma list_digit_eqb_refl ds : list_digit_eqb ds ds = true.
Proof.
  unfold list_digit_eqb. rewrite Nat.eqb_refl. simpl.
  induction ds as [|d ds IH]; simpl; [reflexivity|].
  rewrite IH. destruct d; reflexivity.
Qed.

Lemma equal_unsigned_zero (x : number) :
  x <> NaN -> equal x (unsigned_zero x) = true.
Proof.
  destruct x as [|neg|neg|neg ds n]; simpl; intros H; try congruence.
  - destruct neg; reflexivity.
  - rewrite list_digit_eqb_refl, Z.eqb_refl. destruct neg; reflexivity.
Qed.

Lemma isNaN_false (x : number) : isNaN x = false <-> x <> NaN.
Proof. destruct x; simpl; split; congruence. Qed.

(** A text that is the string form of its parsed number is number-like. *)
Lemma isNumber_string_form (s : string) :
  isNaN (parseFloat s) = false ->
  to_string (parseFloat s) = s ->
  ValueParser.isNumber s = true.
Proof.
  intros Hn Hs. unfold ValueParser.isNumber, ValueParser.loose_equal.
  rewrite Hn. simpl. apply isNaN_false in Hn.
  rewrite <- Hs at 2.
  rewrite (of_string_to_string _ (parseFloat_wf s) Hn).
  rewrite (equal_unsigned_zero _ Hn). reflexivity.
Qed.

End NumberText.

(* ===================================================================== *)
(** ** [JSON.parse]: the recursion budget *)
(* ===================================================================== *)

Section ParserBudget.

Import JSON.

Local Open Scope char_scope.
Local Open Scope list_scope.

Implicit Types (cs rest : list ascii) (fuel : nat).

Lemma skip_ws_length cs : length (skip_ws cs) <= length cs.
Proof.
  induction cs as [|c cs IH]; simpl; [lia|].
  destruct (is_ws c); simpl; lia.
Qed.

Lemma expect_length c cs r : expect c cs = Some r -> length cs = S (length r).
Proof.
  destruct cs as [|x cs']; simpl; [discriminate|].
  destruct (Ascii.eqb x c); [|discriminate]. intros [= ->]. reflexivity.
Qed.

Lemma strip_prefix_length p cs r :
  strip_prefix p cs = Some r -> length cs = length p + length r.
Proof.
  revert cs. induction p as [|a p IH]; intros cs; simpl.
  - intros [= ->]. reflexivity.
  - destruct cs as [|c cs']; [discriminate|].
    destruct (Ascii.eqb a c); [|discriminate].
    intros H. apply IH in H. simpl. lia.
Qed.

Lemma span_digits_length cs :
  length cs = length (fst (span_digits cs)) + length (snd (span_digits cs)).
Proof.
  induction cs as [|c cs IH]; simpl; [reflexivity|].
  destruct (digit_of_ascii c); [|reflexivity].
  destruct (span_digits cs). simpl in *. lia.
Qed.

Lemma scan_sign_length cs :
  length (snd (Number.scan_sign cs)) <= length cs.
Proof.
  destruct cs as [|c cs']; simpl; [lia|].
  destruct (Ascii.eqb c "-"); [simpl; lia|].
  destruct (Ascii.eqb c "+"); simpl; lia.
Qed.

Lemma scan_exponent_length cs :
  length (snd (Number.scan_exponent cs)) <= length cs.
Proof.
  unfold Number.scan_exponent. destruct cs as [|c cs1]; simpl; [lia|].
  destruct (Ascii.eqb c "e" || Ascii.eqb c "E")%bool; [|simpl; lia].
  pose proof (scan_sign_length cs1) as H1.
  destruct (Number.scan_sign cs1) as [sg cs2]. simpl in H1.
  pose proof (span_digits_length cs2) as H2.
  destruct (span_digits cs2) as [[|d ds] rest]; simpl in *; lia.
Qed.

Lemma parse_chars_length cs s rest :
  parse_chars cs = POk s rest -> length rest < length cs.
Proof.
  remember (length cs) as n eqn:En. revert cs s rest En.
  induction n as [n IH] using lt_wf_ind. intros cs s rest -> H.
  destruct cs as [|c r]; [discriminate|]. simpl in H.
  destruct (Ascii.eqb c "034"); [injection H as _ <-; simpl; lia|].
  destruct (Ascii.eqb c "\").
  - destruct r as [|e r']; [discriminate|].
    destruct (Ascii.eqb e "u").
    + destruct r' as [|h1 [|h2 [|h3 [|h4 r'']]]]; try discriminate.
      destruct (hex4 h1 h2 h3 h4); [|discriminate].
      destruct (N.ltb n 256); [|discriminate].
      destruct (parse_chars r'') as [s' rest'| |] eqn:E; try discriminate.
      injection H as _ <-.
      specialize (IH (length r'') ltac:(simpl; lia) r'' s' rest' eq_refl E).
      simpl. lia.
    + destruct (unescape e); [|discriminate].
      destruct (parse_chars r') as [s' rest'| |] eqn:E; try discriminate.
      injection H as _ <-.
      specialize (IH (length r') ltac:(simpl; lia) r' s' rest' eq_refl E).
      simpl. lia.
  - destruct (N.ltb (N_of_ascii c) 32); [discriminate|].
    destruct (parse_chars r) as [s' rest'| |] eqn:E; try discriminate.
    injection H as _ <-.
    specialize (IH (length r) ltac:(simpl; lia) r s' rest' eq_refl E).
    simpl. lia.
Qed.

Lemma parse_chars_no_fuel cs : parse_chars cs <> PFuel.
Proof.
  remember (length cs) as n eqn:En. revert cs En.
  induction n as [n IH] using lt_wf_ind. intros cs ->.
  destruct cs as [|c r]; [discriminate|]. simpl.
  destruct (Ascii.eqb c "034"); [discriminate|].
  destruct (Ascii.eqb c "\").
  - destruct r as [|e r']; [discriminate|].
    destruct (Ascii.eqb e "u").
    + destruct r' as [|h1 [|h2 [|h3 [|h4 r'']]]]; try discriminate.
      destruct (hex4 h1 h2 h3 h4); [|discriminate].
      destruct (N.ltb n 256); [|discriminate].
      specialize (IH (length r'') ltac:(simpl; lia) r'' eq_refl).
      destruct (parse_chars r''); congruence.
    + destruct (unescape e); [|discriminate].
      specialize (IH (length r') ltac:(simpl; lia) r' eq_refl).
      destruct (parse_chars r'); congruence.
  - destruct (N.ltb (N_of_ascii c) 32); [discriminate|].
    specialize (IH (length r) ltac:(simpl; lia) r eq_refl).
    destruct (parse_chars r); congruence.
Qed.

Lemma scan_minus_length cs : length (snd (scan_minus cs)) <= length cs.
Proof.
  destruct cs as [|c cs']; simpl; [lia|].
  destruct (Ascii.eqb c "-"); simpl; lia.
Qed.

Lemma scan_int_length cs ip r :
  scan_int cs = Some (ip, r) -> length r < length cs.
Proof.
  unfold scan_int. destruct cs as [|c cs']; [discriminate|].
  destruct (Ascii.eqb c "0"); [intros [= _ <-]; simpl; lia|].
  pose proof (span_digits_length (c :: cs')) as E.
  destruct (span_digits (c :: cs')) as [[|d l] r']; [discriminate|].
  intros [= _ <-]. simpl in *. lia.
Qed.

Lemma scan_fraction_length cs fp r :
  scan_fraction cs = Some (fp, r) -> length r <= length cs.
Proof.
  unfold scan_fraction. destruct (expect "." cs) as [r0|] eqn:E.
  - apply expect_length in E. pose proof (span_digits_length r0) as E'.
    destruct (span_digits r0) as [[|d l] r']; [discriminate|].
    intros [= _ <-]. simpl in *. lia.
  - intros [= _ <-]. lia.
Qed.

Lemma scan_json_exponent_length cs e r :
  scan_json_exponent cs = Some (e, r) -> length r <= length cs.
Proof.
  unfold scan_json_exponent. destruct cs as [|c cs'].
  - intros [= _ <-]. lia.
  - destruct (Ascii.eqb c "e" || Ascii.eqb c "E")%bool.
    + pose proof (scan_exponent_length (c :: cs')) as H.
      destruct (Number.scan_exponent (c :: cs')) as [e' r'].
      destruct (Nat.eqb _ _); [discriminate|]. intros [= _ <-]. exact H.
    + intros [= _ <-]. lia.
Qed.

Lemma parse_number_length cs x rest :
  parse_number cs = POk x rest -> length rest < length cs.
Proof.
  unfold parse_number. pose proof (scan_minus_length cs) as H0.
  destruct (scan_minus cs) as [neg cs1]. simpl in H0.
  destruct (scan_int cs1) as [[ip r1]|] eqn:E1; [|discriminate].
  apply scan_int_length in E1.
  destruct (scan_fraction r1) as [[fp r3]|] eqn:E2; [|discriminate].
  apply scan_fraction_length in E2.
  destruct (scan_json_exponent r3) as [[e r4]|] eqn:E3; [|discriminate].
  apply scan_json_exponent_length in E3.
  intros [= _ <-]. lia.
Qed.

Lemma parse_number_no_fuel cs : parse_number cs <> PFuel.
Proof.
  unfold parse_number. destruct (scan_minus cs) as [neg cs1].
  destruct (scan_int cs1) as [[ip r1]|]; [|discriminate].
  destruct (scan_fraction r1) as [[fp r3]|]; [|discriminate].
  destruct (scan_json_exponent r3) as [[e r4]|]; discriminate.
Qed.

Lemma parse_scalar_length c r v rest :
  parse_scalar c r = POk v rest -> length rest < length (c :: r).
Proof.
  unfold parse_scalar.
  destruct (Ascii.eqb c "034").
  { destruct (parse_chars r) as [s rest'| |] eqn:E; try discriminate.
    intros [= _ <-]. apply parse_chars_length in E. simpl. lia. }
  destruct (Ascii.eqb c "n").
  { destruct (strip_prefix null_text (c :: r)) eqn:E; [|discriminate].
    intros [= _ <-]. apply strip_prefix_length in E. rewrite E. simpl. lia. }
  destruct (Ascii.eqb c "t").
  { destruct (strip_prefix true_text (c :: r)) eqn:E; [|discriminate].
    intros [= _ <-]. apply strip_prefix_length in E. rewrite E. simpl. lia. }
  destruct (Ascii.eqb c "f").
  { destruct (strip_prefix false_text (c :: r)) eqn:E; [|discriminate].
    intros [= _ <-]. apply strip_prefix_length in E. rewrite E. simpl. lia. }
  destruct (parse_number (c :: r)) as [x rest'| |] eqn:E; try discriminate.
  intros [= _ <-]. apply parse_number_length in E. exact E.
Qed.

Lemma parse_scalar_no_fuel c r : parse_scalar c r <> PFuel.
Proof.
  unfold parse_scalar.
  destruct (Ascii.eqb c "034").
  { pose proof (parse_chars_no_fuel r). destruct (parse_chars r); congruence. }
  destruct (Ascii.eqb c "n"); [destruct (strip_prefix _ _); discriminate|].
  destruct (Ascii.eqb c "t"); [destruct (strip_prefix _ _); discriminate|].
  destruct (Ascii.eqb c "f"); [destruct (strip_prefix _ _); discriminate|].
  pose proof (parse_number_no_fuel (c :: r)).
  destruct (parse_number (c :: r)); congruence.
Qed.

(** The equations of the three parsing functions. *)
Lemma parse_value_S fuel cs :
  parse_value (S fuel) cs =
  match skip_ws cs with
  | [] => PErr
  | c :: r =>
      if Ascii.eqb c "{" then
        match expect "}" (skip_ws r) with
        | Some r' => POk (VObj []) r'
        | None =>
            match parse_members fuel (skip_ws r) with
            | POk ms rest => POk (object_of_members ms) rest
            | PErr => PErr
            | PFuel => PFuel
            end
        end
      else if Ascii.eqb c "[" then
        match expect "]" (skip_ws r) with
        | Some r' => POk (VArr []) r'
        | None =>
            match parse_elements fuel (skip_ws r) with
            | POk vs rest => POk (VArr vs) rest
            | PErr => PErr
            | PFuel => PFuel
            end
        end
      else parse_scalar c r
  end.
Proof. reflexivity. Qed.

Lemma parse_elements_S fuel cs :
  parse_elements (S fuel) cs =
  match parse_value fuel cs with
  | POk v r =>
      match expect "," (skip_ws r) with
      | Some r' =>
          match parse_elements fuel r' with
          | POk vs rest => POk (v :: vs) rest
          | other => other
          end
      | None =>
          match expect "]" (skip_ws r) with
          | Some r' => POk [v] r'
          | None => PErr
          end
      end
  | PErr => PErr
  | PFuel => PFuel
  end.
Proof. reflexivity. Qed.

Lemma parse_members_S fuel cs :
  parse_members (S fuel) cs =
  match expect "034" (skip_ws cs) with
  | Some r0 =>
      match parse_chars r0 with
      | POk k r1 =>
          match expect ":" (skip_ws r1) with
          | Some r2 =>
              match parse_value fuel r2 with
              | POk v r3 =>
                  let m := (string_of_list_ascii k, v) in
                  match expect "," (skip_ws r3) with
                  | Some r4 =>
                      match parse_members fuel r4 with
                      | POk ms rest => POk (m :: ms) rest
                      | other => other
                      end
                  | None =>
                      match expect "}" (skip_ws r3) with
                      | Some r4 => POk [m] r4
                      | None => PErr
                      end
                  end
              | PErr => PErr
              | PFuel => PFuel
              end
          | None => PErr
          end
      | PErr => PErr
      | PFuel => PFuel
      end
  | None => PErr
  end.
Proof. reflexivity. Qed.

(** Every parsing function consumes at least one character. *)
Lemma parse_consumes fuel :
  (forall cs v r, parse_value fuel cs = POk v r -> length r < length cs)
  /\ (forall cs vs r,
        parse_elements fuel cs = POk vs r -> length r < length cs)
  /\ (forall cs ms r,
        parse_members fuel cs = POk ms r -> length r < length cs).
Proof.
  induction fuel as [|fuel (IHv & IHe & IHm)];
    [repeat split; intros; discriminate|].
  split; [|split].
  - intros cs v r. rewrite parse_value_S.
    pose proof (skip_ws_length cs) as Hs.
    destruct (skip_ws cs) as [|c r0]; [discriminate|]. simpl in Hs.
    pose proof (skip_ws_length r0) as Hs0.
    destruct (Ascii.eqb c "{").
    { destruct (expect "}" (skip_ws r0)) as [r'|] eqn:E.
      - apply expect_length in E. intros [= _ <-]. lia.
      - destruct (parse_members fuel (skip_ws r0)) as [ms rest| |] eqn:E';
          try discriminate.
        apply IHm in E'. intros [= _ <-]. lia. }
    destruct (Ascii.eqb c "[").
    { destruct (expect "]" (skip_ws r0)) as [r'|] eqn:E.
      - apply expect_length in E. intros [= _ <-]. lia.
      - destruct (parse_elements fuel (skip_ws r0)) as [vs rest| |] eqn:E';
          try discriminate.
        apply IHe in E'. intros [= _ <-]. lia. }
    intros H. apply parse_scalar_length in H. simpl in H. lia.
  - intros cs vs r. rewrite parse_elements_S.
    destruct (parse_value fuel cs) as [v r0| |] eqn:E; try discriminate.
    apply IHv in E. pose proof (skip_ws_length r0) as Hs.
    destruct (expect "," (skip_ws r0)) as [r'|] eqn:E1.
    + apply expect_length in E1.
      destruct (parse_elements fuel r') as [vs' rest| |] eqn:E2;
        try discriminate.
      apply IHe in E2. intros [= _ <-]. lia.
    + destruct (expect "]" (skip_ws r0)) as [r'|] eqn:E2; [|discriminate].
      apply expect_length in E2. intros [= _ <-]. lia.
  - intros cs ms r. rewrite parse_members_S.
    pose proof (skip_ws_length cs) as Hs.
    destruct (expect "034" (skip_ws cs)) as [r0|] eqn:E0; [|discriminate].
    apply expect_length in E0.
    destruct (parse_chars r0) as [k r1| |] eqn:E1; try discriminate.
    apply parse_chars_length in E1. pose proof (skip_ws_length r1) as Hs1.
    destruct (expect ":" (skip_ws r1)) as [r2|] eqn:E2; [|discriminate].
    apply expect_length in E2.
    destruct (parse_value fuel r2) as [v r3| |] eqn:E3; try discriminate.
    apply IHv in E3. pose proof (skip_ws_length r3) as Hs3. cbv zeta.
    destruct (expect "," (skip_ws r3)) as [r4|] eqn:E4.
    + apply expect_length in E4.
      destruct (parse_members fuel r4) as [ms' rest| |] eqn:E5;
        try discriminate.
      apply IHm in E5. intros [= _ <-]. lia.
    + destruct (expect "}" (skip_ws r3)) as [r4|] eqn:E5; [|discriminate].
      apply expect_length in E5. intros [= _ <-]. lia.
Qed.

(** A result reached within some budget is the result for every larger
    budget. *)
Lemma parse_stable fuel :
  (forall cs fuel', fuel <= fuel' -> parse_value fuel cs <> PFuel ->
     parse_value fuel' cs = parse_value fuel cs)
  /\ (forall cs fuel', fuel <= fuel' -> parse_elements fuel cs <> PFuel ->
        parse_elements fuel' cs = parse_elements fuel cs)
  /\ (forall cs fuel', fuel <= fuel' -> parse_members fuel cs <> PFuel ->
        parse_members fuel' cs = parse_members fuel cs).
Proof.
  induction fuel as [|fuel (IHv & IHe & IHm)];
    [repeat split; intros; simpl in *; congruence|].
  split; [|split].
  - intros cs [|fuel'] Hle; [lia|]. apply le_S_n in Hle.
    rewrite !parse_value_S.
    destruct (skip_ws cs) as [|c r0]; [reflexivity|].
    destruct (Ascii.eqb c "{").
    { destruct (expect "}" (skip_ws r0)); [reflexivity|].
      intros H. rewrite (IHm _ fuel' Hle); [reflexivity|].
      intros E. rewrite E in H. congruence. }
    destruct (Ascii.eqb c "["); [|reflexivity].
    destruct (expect "]" (skip_ws r0)); [reflexivity|].
    intros H. rewrite (IHe _ fuel' Hle); [reflexivity|].
    intros E. rewrite E in H. congruence.
  - intros cs [|fuel'] Hle; [lia|]. apply le_S_n in Hle.
    rewrite !parse_elements_S. intros H.
    rewrite (IHv cs fuel' Hle)
      by (intros E; rewrite E in H; congruence).
    destruct (parse_value fuel cs) as [v r0| |]; try reflexivity.
    destruct (expect "," (skip_ws r0)) as [r'|]; [|reflexivity].
    rewrite (IHe r' fuel' Hle); [reflexivity|].
    intros E. rewrite E in H. congruence.
  - intros cs [|fuel'] Hle; [lia|]. apply le_S_n in Hle.
    rewrite !parse_members_S. intros H.
    destruct (expect "034" (skip_ws cs)) as [r0|]; [|reflexivity].
    destruct (parse_chars r0) as [k r1| |]; try reflexivity.
    destruct (expect ":" (skip_ws r1)) as [r2|]; [|reflexivity].
    rewrite (IHv r2 fuel' Hle)
      by (intros E; rewrite E in H; congruence).
    destruct (parse_value fuel r2) as [v r3| |]; try reflexivity.
    cbv zeta in *.
    destruct (expect "," (skip_ws r3)) as [r4|]; [|reflexivity].
    rewrite (IHm r4 fuel' Hle); [reflexivity|].
    intros E. rewrite E in H. congruence.
Qed.

(** A budget of more than twice the length of the text is never exhausted. *)
Lemma parse_budget fuel :
  (forall cs, 2 * length cs < fuel -> parse_value fuel cs <> PFuel)
  /\ (forall cs, 2 * length cs + 1 < fuel -> parse_elements fuel cs <> PFuel)
  /\ (forall cs, 2 * length cs < fuel -> parse_members fuel cs <> PFuel).
Proof.
  induction fuel as [|fuel (IHv & IHe & IHm)]; [repeat split; intros; lia|].
  destruct (parse_consumes fuel) as (Cv & Ce & Cm).
  split; [|split].
  - intros cs Hf. rewrite parse_value_S.
    pose proof (skip_ws_length cs) as Hs.
    destruct (skip_ws cs) as [|c r0]; [discriminate|]. simpl in Hs.
    pose proof (skip_ws_length r0) as Hs0.
    destruct (Ascii.eqb c "{").
    { destruct (expect "}" (skip_ws r0)); [discriminate|].
      specialize (IHm (skip_ws r0) ltac:(lia)).
      destruct (parse_members fuel (skip_ws r0)); congruence. }
    destruct (Ascii.eqb c "["); [|apply parse_scalar_no_fuel].
    destruct (expect "]" (skip_ws r0)); [discriminate|].
    specialize (IHe (skip_ws r0) ltac:(lia)).
    destruct (parse_elements fuel (skip_ws r0)); congruence.
  - intros cs Hf. rewrite parse_elements_S.
    specialize (IHv cs ltac:(lia)).
    destruct (parse_value fuel cs) as [v r0| |] eqn:E; try congruence.
    apply Cv in E. pose proof (skip_ws_length r0) as Hs.
    destruct (expect "," (skip_ws r0)) as [r'|] eqn:E1.
    + apply expect_length in E1.
      specialize (IHe r' ltac:(lia)).
      destruct (parse_elements fuel r'); congruence.
    + destruct (expect "]" (skip_ws r0)); discriminate.
  - intros cs Hf. rewrite parse_members_S.
    pose proof (skip_ws_length cs) as Hs.
    destruct (expect "034" (skip_ws cs)) as [r0|] eqn:E0; [|discriminate].
    apply expect_length in E0.
    pose proof (parse_chars_no_fuel r0) as Hc.
    destruct (parse_chars r0) as [k r1| |] eqn:E1; try congruence.
    apply parse_chars_length in E1. pose proof (skip_ws_length r1) as Hs1.
    destruct (expect ":" (skip_ws r1)) as [r2|] eqn:E2; [|discriminate].
    apply expect_length in E2.
    specialize (IHv r2 ltac:(lia)).
    destruct (parse_value fuel r2) as [v r3| |] eqn:E3; try congruence.
    apply Cv in E3. pose proof (skip_ws_length r3) as Hs3. cbv zeta.
    destruct (expect "," (skip_ws r3)) as [r4|] eqn:E4.
    + apply expect_length in E4.
      specialize (IHm r4 ltac:(lia)).
      destruct (parse_members fuel r4); congruence.
    + destruct (expect "}" (skip_ws r3)); discriminate.
Qed.

(** The budget [JSON.parse] gives to [parse_value] is never exhausted: a
    SyntaxError of the model is a syntax error of the text. *)
Lemma parse_value_fuel (s : string) :
  let cs := list_ascii_of_string s in
  parse_value (2 * length cs + 2) cs <> PFuel.
Proof. intros cs. apply (proj1 (parse_budget _)). lia. Qed.

(** [JSON.parse] gives the value that any sufficient budget gives. *)
Lemma parse_with_budget (s : string) fuel v rest :
  parse_value fuel (list_ascii_of_string s) = POk v rest ->
  skip_ws rest = [] ->
  JSON.parse s = Ok v.
Proof.
  intros H Hrest. unfold JSON.parse. cbv zeta.
  set (cs := list_ascii_of_string s) in *.
  set (F := 2 * length cs + 2).
  assert (E : parse_value F cs = POk v rest).
  { destruct (Nat.le_ge_cases fuel F) as [Hle|Hle].
    - rewrite (proj1 (parse_stable fuel) cs F Hle); [exact H|].
      rewrite H. discriminate.
    - rewrite <- (proj1 (parse_stable F) cs fuel Hle); [exact H|].
      apply (parse_value_fuel s). }
  rewrite E, Hrest. reflexivity.
Qed.

End ParserBudget.

(* ===================================================================== *)
(** ** [JSON.parse] after [JSON.stringify] *)
(* ===================================================================== *)

Section JSONRoundTrip.

Import JSON Number.

Local Open Scope char_scope.
Local Open Scope list_scope.

Implicit Types (cs rest : list ascii) (fuel : nat) (v : value).

(** Induction on values, with the hypothesis for every item of an array and
    every property of an object. *)
Lemma value_ind (P : value -> Prop) :
  P VUndefined -> P VNull -> (forall b, P (VBool b)) ->
  (forall x, P (VNum x)) -> (forall s, P (VStr s)) ->
  (forall items, Forall P items -> P (VArr items)) ->
  (forall props, Forall (fun p => P (snd p)) props -> P (VObj props)) ->
  forall v, P v.
Proof.
  intros Hu Hn Hb Hx Hs Ha Ho.
  fix IH 1. intros [| |b|x|s|items|props].
  - exact Hu.
  - exact Hn.
  - apply Hb.
  - apply Hx.
  - apply Hs.
  - apply Ha. induction items as [|v items IHl]; constructor.
    + apply IH.
    + exact IHl.
  - apply Ho. induction props as [|[k v] props IHl]; constructor.
    + apply IH.
    + exact IHl.
Qed.

Lemma representable_array items :
  representable (VArr items) <-> Forall representable items.
Proof.
  simpl. induction items as [|v items IH].
  - split; [constructor|trivial].
  - rewrite IH. split.
    + intros [H1 H2]. constructor; assumption.
    + intros H. inversion H; subst. split; assumption.
Qed.

Lemma representable_object props :
  representable (VObj props) <->
  NoDup (map fst props) /\ Forall (fun p => representable (snd p)) props.
Proof.
  simpl. apply and_iff_compat_l. induction props as [|p props IH].
  - split; [constructor|trivial].
  - rewrite IH. split.
    + intros [H1 H2]. constructor; assumption.
    + intros H. inversion H; subst. split; assumption.
Qed.

(** *** Strings *)

Lemma parse_chars_quote_char (c : ascii) cs :
  parse_chars (quote_char c ++ cs) =
  match parse_chars cs with
  | POk s rest => POk (c :: s) rest
  | other => other
  end.
Proof. destruct c as [[] [] [] [] [] [] [] []]; reflexivity. Qed.

Lemma parse_chars_quoted (s : list ascii) rest :
  parse_chars (flat_map quote_char s ++ "034" :: rest) = POk s rest.
Proof.
  induction s as [|c s IH]; [reflexivity|].
  cbn [flat_map]. rewrite <- app_assoc, parse_chars_quote_char, IH.
  reflexivity.
Qed.

(** *** Numbers *)

Lemma scan_int_literal d ip cs :
  (d <> d0 \/ ip = []) -> stops_digits cs ->
  scan_int (chars_of_digits (d :: ip) ++ cs) = Some (d :: ip, cs).
Proof.
  intros Hd Hs. unfold scan_int.
  destruct (digit_eqb d d0) eqn:E.
  - assert (d = d0) as -> by (destruct d; simpl in E; congruence).
    destruct Hd as [Hd| ->]; [congruence|]. reflexivity.
  - pose proof (span_digits_chars (d :: ip) cs Hs) as Sp.
    cbn [chars_of_digits map app] in *.
    assert (Ascii.eqb (ascii_of_digit d) "0" = false) as ->
      by (destruct d; simpl in E; (discriminate || reflexivity)).
    rewrite Sp. reflexivity.
Qed.

Lemma scan_fraction_literal fp e rest :
  fp <> Some [] -> stops_number rest ->
  scan_fraction
    (match fp with Some f => "." :: chars_of_digits f | None => [] end
     ++ match e with Some x => exponent_text x | None => [] end ++ rest)
  = Some (default [] fp,
          match e with Some x => exponent_text x | None => [] end ++ rest).
Proof.
  intros Hfp Hs. unfold scan_fraction. destruct fp as [f|].
  - cbn [app expect Ascii.eqb Bool.eqb andb].
    rewrite span_digits_chars by (apply stops_digits_exponent, Hs).
    destruct f; [congruence|reflexivity].
  - cbn [app]. rewrite (expect_dot_exponent e rest Hs). reflexivity.
Qed.

Lemma scan_json_exponent_literal e rest :
  stops_number rest ->
  scan_json_exponent
    (match e with Some x => exponent_text x | None => [] end ++ rest)
  = Some (default 0%Z e, rest).
Proof.
  intros Hs. unfold scan_json_exponent. destruct e as [x|].
  - rewrite (scan_exponent_text x rest (stops_number_digits rest Hs)).
    unfold exponent_text at 1. cbn [app Ascii.eqb Bool.eqb orb andb].
    destruct (Nat.eqb (length rest) _) eqn:E; [|reflexivity].
    apply Nat.eqb_eq in E. rewrite length_app in E.
    unfold exponent_text in E. simpl in E. lia.
  - cbn [app]. destruct rest as [|c r]; [reflexivity|].
    destruct Hs as (_ & _ & -> & ->). reflexivity.
Qed.

Lemma parse_number_literal (neg : bool) d ip fp e rest :
  (d <> d0 \/ ip = []) -> fp <> Some [] -> stops_number rest ->
  parse_number
    ((if neg then ["-"] else []) ++ literal_text (d :: ip) fp e ++ rest)
  = POk (make neg ((d :: ip) ++ default [] fp)
           (Z.of_nat (length (d :: ip)) + default 0%Z e)) rest.
Proof.
  intros Hd Hfp Hs. unfold parse_number.
  assert (Hm : scan_minus
                 ((if neg then ["-"] else [])
                  ++ literal_text (d :: ip) fp e ++ rest)
               = (neg, literal_text (d :: ip) fp e ++ rest)).
  { destruct neg; [reflexivity|].
    unfold literal_text. cbn [chars_of_digits map app scan_minus].
    destruct d; reflexivity. }
  rewrite Hm. unfold literal_text. rewrite <- !app_assoc.
  rewrite scan_int_literal; [|exact Hd|].
  - rewrite (scan_fraction_literal fp e rest Hfp Hs).
    rewrite (scan_json_exponent_literal e rest Hs). reflexivity.
  - destruct fp; [exact eq_refl|]. cbn [app].
    apply stops_digits_exponent, Hs.
Qed.

Lemma parse_number_serialized (x : number) rest :
  number_representable x -> stops_number rest ->
  parse_number (serialize_number x ++ rest) = POk x rest.
Proof.
  destruct x as [|neg|neg|neg ds n]; simpl; try contradiction.
  - intros -> Hs. unfold parse_number. cbn [app scan_minus Ascii.eqb Bool.eqb andb scan_int].
    pose proof (scan_fraction_literal None None rest
                  ltac:(discriminate) Hs) as F.
    pose proof (scan_json_exponent_literal None rest Hs) as X.
    cbn [app default] in F, X. rewrite F, X. reflexivity.
  - intros (Hne & Hh & Hl) Hs.
    destruct (to_chars_unsigned_literal ds n Hne Hh)
      as (d & ip & fp & e & i & j & -> & Hd & Hn & Hz & Hfp).
    rewrite <- app_assoc.
    rewrite (parse_number_literal neg d ip fp e rest Hz Hfp Hs).
    rewrite Hd, (make_padded neg ds i j _ Hne Hh Hl), Hn. reflexivity.
Qed.

Lemma quote_text (s : string) rest :
  quote s ++ rest
  = "034" :: flat_map quote_char (list_ascii_of_string s) ++ "034" :: rest.
Proof. unfold quote. simpl. rewrite <- app_assoc. reflexivity. Qed.

(** *** Values *)

Lemma parse_value_more fuel fuel' cs v r :
  parse_value fuel cs = POk v r -> fuel <= fuel' ->
  parse_value fuel' cs = POk v r.
Proof.
  intros H Hle. rewrite (proj1 (parse_stable fuel) cs fuel' Hle); [exact H|].
  rewrite H. discriminate.
Qed.

Lemma parse_elements_more fuel fuel' cs vs r :
  parse_elements fuel cs = POk vs r -> fuel <= fuel' ->
  parse_elements fuel' cs = POk vs r.
Proof.
  intros H Hle.
  rewrite (proj1 (proj2 (parse_stable fuel)) cs fuel' Hle); [exact H|].
  rewrite H. discriminate.
Qed.

Lemma parse_members_more fuel fuel' cs ms r :
  parse_members fuel cs = POk ms r -> fuel <= fuel' ->
  parse_members fuel' cs = POk ms r.
Proof.
  intros H Hle.
  rewrite (proj2 (proj2 (parse_stable fuel)) cs fuel' Hle); [exact H|].
  rewrite H. discriminate.
Qed.

Lemma starts_value_skip t rest :
  starts_value t ->
  skip_ws (t ++ rest) = t ++ rest /\ expect "]" (t ++ rest) = None.
Proof.
  destruct t as [|c t']; [contradiction|]. intros [Hw Hb]. simpl.
  rewrite Hw, Hb. split; reflexivity.
Qed.

Lemma serialize_number_head (x : number) :
  number_representable x ->
  exists c r, serialize_number x = c :: r
              /\ (c = "-" \/ exists d, c = ascii_of_digit d).
Proof.
  destruct x as [|neg|neg|neg ds n]; simpl; try contradiction.
  - intros _. exists "0", []. split; [reflexivity|]. right. exists d0.
    reflexivity.
  - intros (Hne & Hh & _).
    destruct neg; [exists "-"; eexists; split; [reflexivity|left; reflexivity]|].
    destruct (to_chars_unsigned_head ds n Hne Hh) as (d & r & ->).
    exists (ascii_of_digit d), r. split; [reflexivity|]. right. eauto.
Qed.

Lemma parse_value_number fuel c r :
  (c = "-" \/ exists d, c = ascii_of_digit d) ->
  parse_value (S fuel) (c :: r) =
  match parse_number (c :: r) with
  | POk x rest => POk (VNum x) rest
  | PErr => PErr
  | PFuel => PFuel
  end
  /\ starts_value (c :: r).
Proof.
  intros [->|[d ->]]; [split; [reflexivity|split; reflexivity]|].
  destruct d; (split; [reflexivity|split; reflexivity]).
Qed.

Lemma skip_ws_cons c r : is_ws c = false -> skip_ws (c :: r) = c :: r.
Proof. intros H. simpl. rewrite H. reflexivity. Qed.

Lemma expect_cons c r : expect c (c :: r) = Some r.
Proof. simpl. rewrite Ascii.eqb_refl. reflexivity. Qed.

Lemma expect_other c x r : Ascii.eqb x c = false -> expect c (x :: r) = None.
Proof. intros H. simpl. rewrite H. reflexivity. Qed.

Lemma parse_value_string fuel r :
  parse_value (S fuel) ("034" :: r) =
  match parse_chars r with
  | POk s rest => POk (VStr (string_of_list_ascii s)) rest
  | PErr => PErr
  | PFuel => PFuel
  end.
Proof. reflexivity. Qed.

(** After a value inside an array or an object: a comma or the closing
    bracket. *)
Lemma after_comma r :
  expect "," (skip_ws ("," :: r)) = Some r.
Proof. reflexivity. Qed.

Lemma after_bracket r :
  expect "," (skip_ws ("]" :: r)) = None
  /\ expect "]" (skip_ws ("]" :: r)) = Some r.
Proof. split; reflexivity. Qed.

Lemma after_brace r :
  expect "," (skip_ws ("}" :: r)) = None
  /\ expect "}" (skip_ws ("}" :: r)) = Some r.
Proof. split; reflexivity. Qed.

Lemma member_key r :
  expect "034" (skip_ws ("034" :: r)) = Some r.
Proof. reflexivity. Qed.

Lemma member_colon r :
  expect ":" (skip_ws (":" :: r)) = Some r.
Proof. reflexivity. Qed.

Lemma stops_number_close c rest :
  c = "]" \/ c = "," \/ c = "}" -> stops_number (c :: rest).
Proof. intros [->|[->| ->]]; repeat split. Qed.

Lemma parses_back_null : parses_back VNull.
Proof.
  exists null_text. split; [reflexivity|]. split; [split; reflexivity|].
  intros rest _. exists 1. reflexivity.
Qed.

Lemma parses_back_bool (b : bool) : parses_back (VBool b).
Proof.
  destruct b.
  - exists true_text. split; [reflexivity|]. split; [split; reflexivity|].
    intros rest _. exists 1. reflexivity.
  - exists false_text. split; [reflexivity|]. split; [split; reflexivity|].
    intros rest _. exists 1. reflexivity.
Qed.

Lemma parses_back_string (s : string) : parses_back (VStr s).
Proof.
  exists (quote s). split; [reflexivity|]. split; [split; reflexivity|].
  intros rest _. exists 1. rewrite quote_text, parse_value_string.
  rewrite parse_chars_quoted, string_of_list_ascii_of_string. reflexivity.
Qed.

Lemma parses_back_number (x : number) :
  number_representable x -> parses_back (VNum x).
Proof.
  intros Hx. exists (serialize_number x). split; [reflexivity|].
  destruct (serialize_number_head x Hx) as (c & r & E & Hc).
  split.
  - rewrite E. exact (proj2 (parse_value_number 0 c r Hc)).
  - intros rest Hs. exists 1.
    pose proof (parse_number_serialized x rest Hx Hs) as P.
    rewrite E in P |- *. cbn [app] in P |- *.
    rewrite (proj1 (parse_value_number 0 c (r ++ rest) Hc)), P.
    reflexivity.
Qed.

Lemma join_cons (x y : list ascii) l :
  join (x :: y :: l) = x ++ "," :: join (y :: l).
Proof. reflexivity. Qed.

Lemma item_texts_cons v t items :
  serialize v = Some t -> item_texts (v :: items) = t :: item_texts items.
Proof. intros E. unfold item_texts. simpl. rewrite E. reflexivity. Qed.

(** The items of an array, up to the closing bracket. *)
Lemma parse_elements_back (items : list value) rest :
  Forall parses_back items -> items <> [] ->
  starts_value (join (item_texts items))
  /\ exists fuel,
       parse_elements fuel (join (item_texts items) ++ "]" :: rest)
       = POk items rest.
Proof.
  intros H. revert rest. induction H as [|v items Hv Hitems IH];
    [congruence|]. intros rest _.
  destruct Hv as (t & Et & St & Pt).
  rewrite (item_texts_cons v t items Et).
  destruct items as [|v' items'].
  - change (join (t :: item_texts [])) with t. split; [exact St|].
    destruct (Pt ("]" :: rest)) as [fuel Pf];
      [apply stops_number_close; auto|].
    exists (S fuel). rewrite parse_elements_S, Pf.
    destruct (after_bracket rest) as [-> ->]. reflexivity.
  - destruct (IH rest ltac:(discriminate)) as [_ [fuel2 P2]].
    inversion Hitems as [|? ? (t' & Et' & _) _]; subst.
    rewrite (item_texts_cons v' t' items' Et') in *.
    rewrite join_cons.
    set (tail := join (t' :: item_texts items')) in *.
    split; [destruct t; [contradiction|exact St]|].
    destruct (Pt ("," :: tail ++ "]" :: rest)) as [fuel1 P1];
      [apply stops_number_close; auto|].
    exists (S (Nat.max fuel1 fuel2)). rewrite parse_elements_S.
    rewrite <- app_assoc. cbn [app].
    rewrite (parse_value_more fuel1 _ _ _ _ P1 (Nat.le_max_l _ _)).
    rewrite after_comma.
    rewrite (parse_elements_more fuel2 _ _ _ _ P2 (Nat.le_max_r _ _)).
    reflexivity.
Qed.

Lemma member_texts_cons (k : string) v t props :
  serialize v = Some t ->
  member_texts ((k, v) :: props) = (quote k ++ ":" :: t) :: member_texts props.
Proof. intros E. simpl. rewrite E. reflexivity. Qed.

(** The properties of an object, up to the closing brace. *)
Lemma parse_members_back (props : list (string * value)) rest :
  Forall (fun p => parses_back (snd p)) props -> props <> [] ->
  (exists r, join (member_texts props) = "034" :: r)
  /\ exists fuel,
       parse_members fuel (join (member_texts props) ++ "}" :: rest)
       = POk props rest.
Proof.
  intros H. revert rest. induction H as [|[k v] props Hv Hprops IH];
    [congruence|]. intros rest _.
  destruct Hv as (t & Et & St & Pt). cbn [snd] in *.
  rewrite (member_texts_cons k v t props Et).
  destruct props as [|[k' v'] props'].
  - change (join ((quote k ++ ":" :: t) :: member_texts []))
      with (quote k ++ ":" :: t).
    split; [unfold quote; simpl; eauto|].
    destruct (Pt ("}" :: rest)) as [fuel Pf];
      [apply stops_number_close; auto|].
    exists (S fuel). rewrite parse_members_S.
    rewrite <- app_assoc, quote_text, member_key, parse_chars_quoted.
    cbn [app]. rewrite member_colon, Pf. cbv zeta.
    destruct (after_brace rest) as [-> ->].
    rewrite string_of_list_ascii_of_string. reflexivity.
  - destruct (IH rest ltac:(discriminate)) as [_ [fuel2 P2]].
    inversion Hprops as [|? ? (t' & Et' & _) _]; subst. cbn [snd] in *.
    rewrite (member_texts_cons k' v' t' props' Et') in *.
    rewrite join_cons.
    set (tail := join ((quote k' ++ ":" :: t') :: member_texts props')) in *.
    split; [unfold quote; simpl; eauto|].
    destruct (Pt ("," :: tail ++ "}" :: rest)) as [fuel1 P1];
      [apply stops_number_close; auto|].
    exists (S (Nat.max fuel1 fuel2)). rewrite parse_members_S.
    rewrite <- !app_assoc, quote_text, member_key, parse_chars_quoted.
    cbn [app]. rewrite member_colon.
    rewrite (parse_value_more fuel1 _ _ _ _ P1 (Nat.le_max_l _ _)).
    cbv zeta. rewrite after_comma.
    rewrite (parse_members_more fuel2 _ _ _ _ P2 (Nat.le_max_r _ _)).
    rewrite string_of_list_ascii_of_string. reflexivity.
Qed.

Lemma parse_value_array fuel r :
  parse_value (S fuel) ("[" :: r) =
  match expect "]" (skip_ws r) with
  | Some r' => POk (VArr []) r'
  | None =>
      match parse_elements fuel (skip_ws r) with
      | POk vs rest => POk (VArr vs) rest
      | PErr => PErr
      | PFuel => PFuel
      end
  end.
Proof. reflexivity. Qed.

Lemma parse_value_object fuel r :
  parse_value (S fuel) ("{" :: r) =
  match expect "}" (skip_ws r) with
  | Some r' => POk (VObj []) r'
  | None =>
      match parse_members fuel (skip_ws r) with
      | POk ms rest => POk (object_of_members ms) rest
      | PErr => PErr
      | PFuel => PFuel
      end
  end.
Proof. reflexivity. Qed.

Lemma serialize_object props :
  serialize (VObj props) = Some ("{" :: join (member_texts props) ++ ["}"]).
Proof. reflexivity. Qed.

(** Without a repeated key, defining the properties one after the other
    gives them back in order. *)
Lemma define_property_fresh (k : string) v props :
  ~ In k (map fst props) -> define_property k v props = props ++ [(k, v)].
Proof.
  induction props as [|[k' v'] props IH]; simpl; [reflexivity|].
  intros H. destruct (String.eqb k k') eqn:E.
  - apply String.eqb_eq in E. exfalso. apply H. left. congruence.
  - rewrite IH; [reflexivity|]. intros Hin. apply H. right. exact Hin.
Qed.

Lemma define_properties (props acc : list (string * value)) :
  NoDup (map fst (acc ++ props)) ->
  fold_left (fun ps m => define_property (fst m) (snd m) ps) props acc
  = acc ++ props.
Proof.
  revert acc. induction props as [|[k v] props IH]; intros acc H; simpl.
  - rewrite app_nil_r. reflexivity.
  - rewrite define_property_fresh.
    + rewrite IH.
      * rewrite <- app_assoc. reflexivity.
      * rewrite <- app_assoc. exact H.
    + rewrite map_app in H. simpl in H.
      apply NoDup_app in H as (_ & Hd & _). intros Hin.
      apply list_elem_of_In in Hin. apply (Hd k Hin). left.
Qed.

Lemma object_of_members_distinct (props : list (string * value)) :
  NoDup (map fst props) -> object_of_members props = VObj props.
Proof.
  intros H. unfold object_of_members.
  rewrite (define_properties props [] H). reflexivity.
Qed.

(** Every JSON-representable value is written as a text that is read back
    as the value. *)
Lemma representable_parses_back v : representable v -> parses_back v.
Proof.
  induction v as [| |b|x|s|items IH|props IH] using value_ind; intros R.
  - contradiction.
  - apply parses_back_null.
  - apply parses_back_bool.
  - apply parses_back_number, R.
  - apply parses_back_string.
  - apply representable_array in R.
    assert (Hall : Forall parses_back items).
    { rewrite Forall_forall in *. intros v Hv. apply IH; auto. }
    exists ("[" :: join (item_texts items) ++ ["]"]).
    split; [reflexivity|]. split; [split; reflexivity|].
    intros rest _. destruct items as [|v items]; [exists 1; reflexivity|].
    destruct (parse_elements_back (v :: items) rest Hall ltac:(discriminate))
      as [St [fuel P]].
    exists (S fuel). cbn [app]. rewrite parse_value_array.
    rewrite <- app_assoc. cbn [app].
    destruct (starts_value_skip _ ("]" :: rest) St) as [-> ->].
    rewrite P. reflexivity.
  - apply representable_object in R. destruct R as [Hnd R].
    assert (Hall : Forall (fun p => parses_back (snd p)) props).
    { rewrite Forall_forall in *. intros p Hp. apply IH; auto. }
    exists ("{" :: join (member_texts props) ++ ["}"]).
    split; [apply serialize_object|]. split; [split; reflexivity|].
    intros rest _. destruct props as [|p props]; [exists 1; reflexivity|].
    destruct (parse_members_back (p :: props) rest Hall ltac:(discriminate))
      as [[r0 Er] [fuel P]].
    exists (S fuel). cbn [app]. rewrite parse_value_object.
    rewrite <- app_assoc. cbn [app].
    rewrite Er in P |- *. cbn [app] in P |- *.
    rewrite (skip_ws_cons "034") by reflexivity.
    rewrite (expect_other "}" "034") by reflexivity.
    rewrite P, (object_of_members_distinct _ Hnd). reflexivity.
Qed.

(** [JSON.parse (JSON.stringify v)] is [v], for every JSON-representable
    value [v]. *)
Lemma parse_stringify v :
  representable v ->
  exists s, JSON.stringify v = VStr s /\ JSON.parse s = Ok v.
Proof.
  intros R. destruct (representable_parses_back v R) as (t & Et & _ & Pt).
  destruct (Pt [] I) as [fuel P]. rewrite app_nil_r in P.
  exists (string_of_list_ascii t). split.
  - unfold JSON.stringify. rewrite Et. reflexivity.
  - apply (parse_with_budget _ fuel v []); [|reflexivity].
    rewrite list_ascii_of_string_of_list_ascii. exact P.
Qed.

(** What the facade writes for a JSON-representable value that is not a
    string is read back as the value. *)
Lemma representable_reads_back v :
  representable v -> typeof v <> TString -> reads_back v.
Proof.
  intros R Ht. destruct (parse_stringify v R) as (s & Es & Ps).
  unfold reads_back, TypeSafeStorage.stringify.
  destruct v; simpl in Ht; try congruence; simpl typeof; cbv iota;
    rewrite Es; exact Ps.
Qed.

End JSONRoundTrip.

(* ===================================================================== *)
(** ** Serialization: [stringify] *)
(* ===================================================================== *)

Section Stringify.

Lemma JSON_stringify_cases (v : value) :
  (v = VUndefined /\ JSON.stringify v = VUndefined)
  \/ (v <> VUndefined /\ exists s, JSON.stringify v = VStr s).
Proof.
  unfold JSON.stringify.
  destruct v; simpl; (left; split; reflexivity) || (right; split; [discriminate | eauto]).
Qed.

Lemma stringify_same (v : value) :
  ValueParser.stringify v = TypeSafeStorage.stringify v.
Proof. reflexivity. Qed.

Lemma stringify_string (s : string) :
  TypeSafeStorage.stringify (VStr s) = VStr s.
Proof. reflexivity. Qed.

Lemma stringify_defined (v : value) :
  v <> VUndefined -> exists s, TypeSafeStorage.stringify v = VStr s.
Proof.
  intros Hv. destruct (JSON_stringify_cases v) as [[-> _]|[_ [s Hs]]];
    [congruence|].
  unfold TypeSafeStorage.stringify. destruct v; simpl; eauto.
Qed.


End Stringify.

(* ===================================================================== *)
(** ** The compatibility parser: [parseValue], [isNumber], [isJSON] *)
(* ===================================================================== *)

Section ParseValue.

Import ValueParser.

Lemma char_at_0 (s : string) (c : ascii) :
  char_at s 0 = Some c -> exists s', s = String c s'.
Proof.
  destruct s as [|a s']; simpl; [discriminate|].
  intros [= ->]. eauto.
Qed.

Lemma is_char_true (o : option ascii) (a : ascii) :
  is_char o a = true <-> o = Some a.
Proof.
  destruct o as [b|]; simpl; [|split; discriminate].
  rewrite Ascii.eqb_eq. split; congruence.
Qed.

(** [isJSON] holds exactly for a text whose first and last characters are
    a pair of braces or a pair of square brackets. *)
Lemma isJSON_spec (s : string) :
  isJSON s = true <->
  (char_at s 0 = Some "{"%char
   /\ char_at s (Z.of_nat (String.length s) - 1) = Some "}"%char)
  \/ (char_at s 0 = Some "["%char
      /\ char_at s (Z.of_nat (String.length s) - 1) = Some "]"%char).
Proof.
  unfold isJSON. rewrite <- !is_char_true.
  destruct (is_char (char_at s 0) "{"),
           (is_char (char_at s (Z.of_nat (String.length s) - 1)) "}"),
           (is_char (char_at s 0) "["),
           (is_char (char_at s (Z.of_nat (String.length s) - 1)) "]");
    simpl; intuition discriminate.
Qed.

Lemma isJSON_first (s : string) :
  isJSON s = true ->
  exists s', s = String "{"%char s' \/ s = String "["%char s'.
Proof.
  rewrite isJSON_spec. intros [[H _]|[H _]];
    apply char_at_0 in H as [s' ->]; eauto.
Qed.

(** No number starts with a bracket: [parseFloat] gives NaN. *)
Lemma parseFloat_bracket (s : string) :
  Number.parseFloat (String "{"%char s) = Number.NaN
  /\ Number.parseFloat (String "["%char s) = Number.NaN.
Proof. split; reflexivity. Qed.

Lemma isJSON_not_number (s : string) :
  isJSON s = true -> isNumber s = false.
Proof.
  intros H. apply isJSON_first in H as [s' [-> | ->]]; unfold isNumber.
  - rewrite (proj1 (parseFloat_bracket s')). reflexivity.
  - rewrite (proj2 (parseFloat_bracket s')). reflexivity.
Qed.

(** A JSON text that starts with a bracket denotes an object or an array. *)
Lemma parse_value_brace (fuel : nat) (r : list ascii) :
  match JSON.parse_value fuel ("{"%char :: r) with
  | JSON.POk v _ => exists props, v = VObj props
  | _ => True
  end.
Proof.
  destruct fuel as [|fuel]; simpl; [exact I|].
  destruct (expect "}"%char (JSON.skip_ws r)); [eauto|].
  destruct (JSON.parse_members fuel (JSON.skip_ws r)); try exact I.
  unfold JSON.object_of_members. eauto.
Qed.

Lemma parse_value_bracket (fuel : nat) (r : list ascii) :
  match JSON.parse_value fuel ("["%char :: r) with
  | JSON.POk v _ => exists items, v = VArr items
  | _ => True
  end.
Proof.
  destruct fuel as [|fuel]; simpl; [exact I|].
  destruct (expect "]"%char (JSON.skip_ws r)); [eauto|].
  destruct (JSON.parse_elements fuel (JSON.skip_ws r)); eauto.
Qed.

Lemma parse_bracketed_not_string (s : string) (v : value) :
  isJSON s = true -> JSON.parse s = Ok v -> typeof v = TObject.
Proof.
  intros H. apply isJSON_first in H as [s' [-> | ->]];
    unfold JSON.parse; simpl list_ascii_of_string.
  - pose proof (parse_value_brace
      (2 * length ("{"%char :: list_ascii_of_string s') + 2)
      (list_ascii_of_string s')) as P.
    destruct JSON.parse_value as [w rest| |]; try discriminate.
    destruct P as [props ->]. destruct (JSON.skip_ws rest); [|discriminate].
    intros [= <-]. reflexivity.
  - pose proof (parse_value_bracket
      (2 * length ("["%char :: list_ascii_of_string s') + 2)
      (list_ascii_of_string s')) as P.
    destruct JSON.parse_value as [w rest| |]; try discriminate.
    destruct P as [items ->]. destruct (JSON.skip_ws rest); [|discriminate].
    intros [= <-]. reflexivity.
Qed.

Lemma parseValue_not_string (v : value) :
  typeof v <> TString -> parseValue v = Ok v.
Proof. destruct v; simpl; congruence. Qed.

(** The three branches of [parseValue] on a string. *)
Lemma parseValue_string (s : string) :
  parseValue (VStr s) =
  if isNumber s then Ok (VNum (Number.parseFloat s))
  else if isJSON s then JSON.parse s
  else Ok (VStr s).
Proof. reflexivity. Qed.

Lemma parseValue_idempotent (v : value) :
  and_then (parseValue v) parseValue = parseValue v.
Proof.
  destruct v; try reflexivity.
  rewrite parseValue_string.
  destruct (isNumber s) eqn:EN; [reflexivity|].
  destruct (isJSON s) eqn:EJ.
  - destruct (JSON.parse s) as [w|e] eqn:EP; [|reflexivity].
    simpl. apply parseValue_not_string.
    rewrite (parse_bracketed_not_string s w EJ EP). discriminate.
  - simpl. rewrite EN, EJ. reflexivity.
Qed.

End ParseValue.

Section NumberLike.

Import ValueParser.

(** [parseValue] returns a number for a string exactly on the [isNumber]
    branch. *)
Lemma parseValue_number (s : string) (x : Number.number) :
  parseValue (VStr s) = Ok (VNum x) <->
  isNumber s = true /\ x = Number.parseFloat s.
Proof.
  rewrite parseValue_string. destruct (isNumber s) eqn:EN.
  - split; [intros [= <-]; auto | intros [_ ->]; reflexivity].
  - split; [|intros [? _]; discriminate].
    destruct (isJSON s) eqn:EJ; [|discriminate].
    intros H. pose proof (parse_bracketed_not_string s _ EJ H).
    discriminate.
Qed.

Lemma isNumber_spec (s : string) :
  isNumber s = true <->
  Number.isNaN (Number.parseFloat s) = false
  /\ Number.equal (Number.parseFloat s) (Number.of_string s) = true.
Proof.
  unfold isNumber, loose_equal.
  destruct (Number.isNaN _), (Number.equal _ _); simpl;
    intuition congruence.
Qed.

End NumberLike.

(* ===================================================================== *)
(** ** The facade over the store *)
(* ===================================================================== *)

Local Open Scope async_scope.

(** Unfold one layer of the facade and of the store primitives. *)
Ltac run :=
  unfold outcome, final,
    TypeSafeStorage.getItem, TypeSafeStorage.setItem,
    TypeSafeStorage.mergeItem, TypeSafeStorage.multiGet,
    TypeSafeStorage.multiSet, TypeSafeStorage.multiRemove,
    TypeSafeStorage.removeItem,
    AsyncStorage.getItem, AsyncStorage.setItem, AsyncStorage.mergeItem,
    AsyncStorage.multiGet, AsyncStorage.multiSet, AsyncStorage.multiRemove,
    AsyncStorage.removeItem,
    AsyncStorage.bind, AsyncStorage.record, AsyncStorage.update,
    AsyncStorage.read, AsyncStorage.lift, AsyncStorage.raise,
    AsyncStorage.ret;
  cbn [fst snd AsyncStorage.entries AsyncStorage.calls].

Section Facade.

Import TypeSafeStorage.

Implicit Types (k key : string) (v : value) (st : AsyncStorage.store).

(** What [getItem] returns is decided by the entry of the key alone. *)
Lemma getItem_outcome key st :
  outcome (getItem key) st = parse_raw (AsyncStorage.entries st !! key).
Proof. run. reflexivity. Qed.

Lemma setItem_final key v s st :
  stringify v = VStr s ->
  AsyncStorage.entries (final (setItem key v) st)
  = <[key := s]> (AsyncStorage.entries st)
  /\ outcome (setItem key v) st = Ok tt.
Proof. intros H. run. rewrite H. cbn. split; reflexivity. Qed.

(** After [setItem key v], [getItem key] returns what [JSON.parse] makes of
    the text [stringify] wrote. *)
Lemma setItem_getItem key v s st :
  stringify v = VStr s ->
  outcome (setItem key v ;; getItem key) st = JSON.parse s.
Proof.
  intros H. run. rewrite H. cbn.
  rewrite lookup_insert_eq. reflexivity.
Qed.

Lemma setItem_getItem_reads_back key v st :
  reads_back v -> outcome (setItem key v ;; getItem key) st = Ok v.
Proof.
  unfold reads_back. destruct (stringify v) as [| | | |s| |] eqn:E;
    try contradiction.
  intros H. rewrite (setItem_getItem key v s st E). exact H.
Qed.

(** The round trip of a JSON-representable value that is not a string. *)
Lemma setItem_getItem_round_trip key v st :
  representable v -> typeof v <> TString ->
  outcome (setItem key v ;; getItem key) st = Ok v.
Proof.
  intros R Ht. apply setItem_getItem_reads_back.
  apply representable_reads_back; assumption.
Qed.

Lemma mergeItem_calls key v st :
  AsyncStorage.calls (final (mergeItem key v) st)
  = (AsyncStorage.calls st
     ++ [AsyncStorage.CMergeItem key (JSON.stringify v)])%list.
Proof. run. destruct (JSON.stringify v); reflexivity. Qed.


Lemma validateJSON_spec v :
  (ValueParser.validateJSON v = Throw ValueParser.invalid_argument <->
     truthy v = false \/ typeof v <> TObject)
  /\ (ValueParser.validateJSON v = Ok tt <->
        (exists items, v = VArr items) \/ (exists props, v = VObj props)).
Proof.
  unfold ValueParser.validateJSON.
  destruct v as [| |b|x|s|items|props]; simpl.
  1-2, 6-7: split; split; intros; (try discriminate); (try reflexivity);
    (try (left; reflexivity)); eauto;
    repeat match goal with
           | H : _ \/ _ |- _ => destruct H
           | H : exists _, _ |- _ => destruct H
           end; try discriminate; try congruence.
  all: destruct (negb _); split; split; intros; (try discriminate);
    (try reflexivity); (try (right; discriminate));
    repeat match goal with
           | H : _ \/ _ |- _ => destruct H
           | H : exists _, _ |- _ => destruct H
           end; try discriminate; try congruence.
Qed.

(** [parse_pairs] keeps the keys, in order, and parses each raw value. *)
Lemma parse_pairs_spec (values : list (string * option string))
    (l : list (string * value)) :
  parse_pairs values = Ok l <->
  Forall2 (fun p q => fst q = fst p /\ parse_raw (snd p) = Ok (snd q))
    values l.
Proof.
  revert l. induction values as [|[key raw] rest IH]; intros l; simpl.
  - split.
    + intros [= <-]. constructor.
    + intros H. inversion H. reflexivity.
  - destruct (parse_raw raw) as [v|e] eqn:E.
    + destruct (parse_pairs rest) as [l'|e] eqn:E'.
      * split.
        -- intros [= <-]. constructor; [split; [reflexivity|exact E]|].
           apply IH. reflexivity.
        -- intros H. inversion H as [|? [k' v'] ? ? [Hk Hv] Hrest]; subst.
           simpl in *. subst. apply IH in Hrest. congruence.
      * split; [discriminate|].
        intros H. inversion H as [|? [k' v'] ? ? [Hk Hv] Hrest]; subst.
        apply IH in Hrest. discriminate.
    + split; [discriminate|].
      intros H. inversion H as [|? [k' v'] ? ? [Hk Hv] Hrest]; subst.
      simpl in *. congruence.
Qed.

Lemma multiGet_outcome (keys : list string) st :
  outcome (multiGet keys) st
  = parse_pairs (map (fun k => (k, AsyncStorage.entries st !! k)) keys).
Proof. run. reflexivity. Qed.

End Facade.

Section Batches.

Import TypeSafeStorage.

Implicit Types (k : string) (v : value) (st : AsyncStorage.store).

Lemma multiSet_two_final k1 k2 v1 v2 s1 s2 st :
  stringify v1 = VStr s1 -> stringify v2 = VStr s2 ->
  (multiSet [(k1, v1); (k2, v2)]) st
  = (Ok tt,
     AsyncStorage.mkStore
       (<[k2 := s2]> (<[k1 := s1]> (AsyncStorage.entries st)))
       (AsyncStorage.calls st
        ++ [AsyncStorage.CMultiSet [(k1, VStr s1); (k2, VStr s2)]])%list).
Proof. intros H1 H2. run. cbn. rewrite H1, H2. reflexivity. Qed.

Lemma setItem_run k v s st :
  stringify v = VStr s ->
  (setItem k v) st
  = (Ok tt,
     AsyncStorage.mkStore (<[k := s]> (AsyncStorage.entries st))
       (AsyncStorage.calls st ++ [AsyncStorage.CSetItem k (VStr s)])%list).
Proof. intros H. run. rewrite H. reflexivity. Qed.

Lemma reads_back_text v :
  reads_back v -> exists s, stringify v = VStr s /\ JSON.parse s = Ok v.
Proof.
  unfold reads_back. destruct (stringify v); try contradiction. eauto.
Qed.

(** Two writes to different keys, in either order, then a batch read. *)
Lemma setItem_twice_multiGet k1 k2 v1 v2 st :
  k1 <> k2 -> reads_back v1 -> reads_back v2 ->
  outcome (setItem k1 v1 ;; setItem k2 v2 ;; multiGet [k1; k2]) st
  = Ok [(k1, v1); (k2, v2)]
  /\ outcome (setItem k2 v2 ;; setItem k1 v1 ;; multiGet [k1; k2]) st
     = Ok [(k1, v1); (k2, v2)].
Proof.
  intros Hne R1 R2.
  destruct (reads_back_text v1 R1) as (s1 & E1 & P1).
  destruct (reads_back_text v2 R2) as (s2 & E2 & P2).
  split; unfold outcome, AsyncStorage.bind.
  - rewrite (setItem_run k1 v1 s1 st E1), (setItem_run k2 v2 s2 _ E2).
    run. cbn.
    rewrite lookup_insert_eq, lookup_insert_ne by congruence.
    rewrite lookup_insert_eq. cbn. rewrite P1, P2. reflexivity.
  - rewrite (setItem_run k2 v2 s2 st E2), (setItem_run k1 v1 s1 _ E1).
    run. cbn.
    rewrite lookup_insert_eq, lookup_insert_ne by congruence.
    rewrite lookup_insert_eq. cbn. rewrite P1, P2. reflexivity.
Qed.

(** The batch read answers position by position. *)
Lemma multiGet_positions (keys : list string) st
    (l : list (string * value)) :
  outcome (multiGet keys) st = Ok l <->
  Forall2 (fun k q => fst q = k
                      /\ parse_raw (AsyncStorage.entries st !! k)
                         = Ok (snd q))
    keys l.
Proof.
  rewrite multiGet_outcome, parse_pairs_spec.
  rewrite Forall2_fmap_l. reflexivity.
Qed.

End Batches.

(* ===================================================================== *)
(** ** The claims *)
(* ===================================================================== *)

(** C1 (the code departs from the claim on strings).  [setItem] writes a
    string as it is, and [getItem] reads every stored text with [JSON.parse]:
    after [setItem k "hello"], [getItem k] throws a SyntaxError instead of
    returning ["hello"]; after [setItem k "123"], it returns the number [123],
    not the string. *)
Theorem C1_string_round_trip_fails (k : string) (st : AsyncStorage.store) :
  outcome (TypeSafeStorage.setItem k (VStr "hello") ;;
           TypeSafeStorage.getItem k) st = Throw SyntaxError
  /\ outcome (TypeSafeStorage.setItem k (VStr "123") ;;
              TypeSafeStorage.getItem k) st = Ok (VNum (Number.of_Z 123))
  /\ Ok (VNum (Number.of_Z 123)) <> Ok (VStr "123").
Proof.
  split; [|split].
  - rewrite (setItem_getItem k (VStr "hello") "hello" st eq_refl).
    reflexivity.
  - rewrite (setItem_getItem k (VStr "123") "123" st eq_refl).
    reflexivity.
  - discriminate.
Qed.



(** C3, as the claim states it, fails: the result of [getItem] for a key
    whose stored text is [null] is the result of [getItem] for a key without
    entry; writing [null] with [setItem] gives the same. *)
Lemma C3_counterexample :
  outcome (TypeSafeStorage.getItem "k")
    (AsyncStorage.mkStore (<["k" := "null"]> ∅) [])
  = outcome (TypeSafeStorage.getItem "k") AsyncStorage.empty
  /\ outcome (TypeSafeStorage.setItem "k" VNull ;;
              TypeSafeStorage.getItem "k") AsyncStorage.empty
     = outcome (TypeSafeStorage.getItem "k") AsyncStorage.empty.
Proof.
  split.
  - rewrite !getItem_outcome. cbn [AsyncStorage.entries AsyncStorage.empty].
    rewrite lookup_insert_eq, lookup_empty. reflexivity.
  - rewrite (setItem_getItem "k" VNull "null" _ eq_refl).
    rewrite getItem_outcome. cbn [AsyncStorage.entries AsyncStorage.empty].
    rewrite lookup_empty. reflexivity.
Qed.

(** C3, amended.  [getItem k] returns [null] when the store has no entry for
    [k], and the JSON value of the stored text when it has one.  The text
    [null] denotes [null], so that outcome is the one of absence: an entry
    gives the outcome of absence exactly when its text denotes [null]. *)
Theorem C3_absent_or_parsed (k : string) (st0 st : AsyncStorage.store)
    (raw : string) :
  AsyncStorage.entries st0 !! k = None ->
  AsyncStorage.entries st !! k = Some raw ->
  outcome (TypeSafeStorage.getItem k) st0 = Ok VNull
  /\ outcome (TypeSafeStorage.getItem k) st = JSON.parse raw
  /\ JSON.parse "null" = Ok VNull
  /\ (outcome (TypeSafeStorage.getItem k) st
      = outcome (TypeSafeStorage.getItem k) st0
      <-> JSON.parse raw = Ok VNull).
Proof.
  intros H0 H. rewrite !getItem_outcome, H0, H. simpl.
  repeat split; auto.
Qed.

(** C3 at the key [k], absent from the empty store and holding [true] in
    another. *)
Lemma C3_witness :
  outcome (TypeSafeStorage.getItem "k") AsyncStorage.empty = Ok VNull
  /\ outcome (TypeSafeStorage.getItem "k")
       (AsyncStorage.mkStore (<["k" := "true"]> ∅) [])
     = JSON.parse "true"
  /\ JSON.parse "null" = Ok VNull
  /\ (outcome (TypeSafeStorage.getItem "k")
        (AsyncStorage.mkStore (<["k" := "true"]> ∅) [])
      = outcome (TypeSafeStorage.getItem "k") AsyncStorage.empty
      <-> JSON.parse "true" = Ok VNull).
Proof.
  apply (C3_absent_or_parsed "k" AsyncStorage.empty
           (AsyncStorage.mkStore (<["k" := "true"]> ∅) []) "true");
    reflexivity.
Defined.

(** C4 (the code departs from the claim on the read).  [setItem k "hello"]
    writes the raw text [hello], without quotes, to the store; the
    [getItem k] that follows throws a SyntaxError instead of returning the
    string ["hello"]. *)
Theorem C4_plain_string_written_raw (k : string) (st : AsyncStorage.store) :
  AsyncStorage.entries
    (final (TypeSafeStorage.setItem k (VStr "hello")) st) !! k = Some "hello"
  /\ outcome (TypeSafeStorage.setItem k (VStr "hello") ;;
              TypeSafeStorage.getItem k) st = Throw SyntaxError.
Proof.
  split.
  - destruct (setItem_final k (VStr "hello") "hello" st eq_refl) as [-> _].
    apply lookup_insert_eq.
  - rewrite (setItem_getItem k (VStr "hello") "hello" st eq_refl).
    reflexivity.
Qed.

(** C5, as the claim states it, fails: the text [042] is returned as the
    number [42], whose string form, [42], is not the original text; so are
    the texts [+42], [ 42] and [42.0]. *)
Lemma C5_counterexample :
  ValueParser.parseValue (VStr "042") = Ok (VNum (Number.of_Z 42))
  /\ Number.to_string (Number.parseFloat "042") = "42"
  /\ "42" <> "042"
  /\ ValueParser.parseValue (VStr "+42") = Ok (VNum (Number.of_Z 42))
  /\ ValueParser.parseValue (VStr " 42") = Ok (VNum (Number.of_Z 42))
  /\ ValueParser.parseValue (VStr "42.0") = Ok (VNum (Number.of_Z 42)).
Proof. repeat split. discriminate. Qed.

(** C5, amended.  The compatibility parser returns a number for a raw string
    exactly when [parseFloat] of the string is not NaN and is equal to the
    whole string converted to a number (the loose equality [parsed == value]
    of [isNumber]); the number returned is [parseFloat] of the string.  A
    string whose [parseFloat] is not NaN and that is the string form of its
    parsed number is always returned as that number, and the raw string [42]
    gives the number [42], not a string; the converse is not claimed. *)
Theorem C5_number_like (s : string) :
  (forall x,
     ValueParser.parseValue (VStr s) = Ok (VNum x) <->
     Number.isNaN (Number.parseFloat s) = false
     /\ Number.equal (Number.parseFloat s) (Number.of_string s) = true
     /\ x = Number.parseFloat s)
  /\ (Number.isNaN (Number.parseFloat s) = false ->
      Number.to_string (Number.parseFloat s) = s ->
      ValueParser.parseValue (VStr s) = Ok (VNum (Number.parseFloat s)))
  /\ ValueParser.parseValue (VStr "42") = Ok (VNum (Number.of_Z 42))
  /\ Ok (VNum (Number.of_Z 42)) <> Ok (VStr "42").
Proof.
  split; [|split; [|split]].
  - intros x. rewrite parseValue_number, isNumber_spec. tauto.
  - intros Hn Hs. apply parseValue_number. split; [|reflexivity].
    apply isNumber_string_form; assumption.
  - reflexivity.
  - discriminate.
Qed.

(** C5 at the text [1.5e-7], the string form of its parsed number. *)
Lemma C5_witness :
  ValueParser.parseValue (VStr "1.5e-7")
  = Ok (VNum (Number.parseFloat "1.5e-7")).
Proof.
  apply (proj1 (proj2 (C5_number_like "1.5e-7"))); reflexivity.
Defined.

(** C6 (the code departs from the claim on strings).  [multiGet] answers in
    the order of its keys: it returns a list [l] exactly when [l] has, at
    each position, the key of that position with [null] if the store has no
    entry for it and the JSON value of its stored text otherwise.  But
    [setItem] writes a string as it is: after [setItem k1 "hello"] and
    [setItem k2 "world"], in either order, [multiGet [k1; k2]] throws a
    SyntaxError instead of returning [[(k1, "hello"); (k2, "world")]]. *)
Theorem C6_multiGet_positional_strings_fail (k1 k2 : string)
    (st : AsyncStorage.store) :
  (forall (keys : list string) (l : list (string * value)),
     outcome (TypeSafeStorage.multiGet keys) st = Ok l <->
     Forall2
       (fun k q =>
          fst q = k
          /\ match AsyncStorage.entries st !! k with
             | None => snd q = VNull
             | Some raw => JSON.parse raw = Ok (snd q)
             end)
       keys l)
  /\ outcome (TypeSafeStorage.setItem k1 (VStr "hello") ;;
              TypeSafeStorage.setItem k2 (VStr "world") ;;
              TypeSafeStorage.multiGet [k1; k2]) st
     = Throw SyntaxError
  /\ outcome (TypeSafeStorage.setItem k2 (VStr "world") ;;
              TypeSafeStorage.setItem k1 (VStr "hello") ;;
              TypeSafeStorage.multiGet [k1; k2]) st
     = Throw SyntaxError.
Proof.
  split; [|split].
  - intros keys l. rewrite multiGet_positions.
    split; intros H; eapply Forall2_impl; try exact H;
      intros k q [Hk Hv]; (split; [exact Hk|]);
      destruct (AsyncStorage.entries st !! k); simpl in *; congruence.
  - unfold outcome, AsyncStorage.bind.
    rewrite (setItem_run k1 (VStr "hello") "hello" st eq_refl),
      (setItem_run k2 (VStr "world") "world" _ eq_refl).
    run. cbn. destruct (string_dec k1 k2) as [->|Hne].
    + rewrite lookup_insert_eq. reflexivity.
    + rewrite lookup_insert_ne, lookup_insert_eq by congruence. reflexivity.
  - unfold outcome, AsyncStorage.bind.
    rewrite (setItem_run k2 (VStr "world") "world" st eq_refl),
      (setItem_run k1 (VStr "hello") "hello" _ eq_refl).
    run. cbn. rewrite lookup_insert_eq. reflexivity.
Qed.

(** C7. The compatibility parser reads a string as JSON exactly when its
    first and last characters are a matching pair, a brace pair or a square
    bracket pair: on such a string the result of [parseValue] is that of
    [JSON.parse] (such a string is never number-like); on any other string
    the result is the number when the string is number-like, and the string
    itself, unchanged, when it is not. *)
Theorem C7_parseValue_json_branch (s : string) :
  (ValueParser.isJSON s = true <->
     (ValueParser.char_at s 0 = Some "{"%char
      /\ ValueParser.char_at s (Z.of_nat (String.length s) - 1) = Some "}"%char)
     \/ (ValueParser.char_at s 0 = Some "["%char
         /\ ValueParser.char_at s (Z.of_nat (String.length s) - 1)
            = Some "]"%char))
  /\ (ValueParser.isJSON s = true ->
        ValueParser.isNumber s = false
        /\ ValueParser.parseValue (VStr s) = JSON.parse s)
  /\ (ValueParser.isJSON s = false ->
        ValueParser.parseValue (VStr s) =
        if ValueParser.isNumber s then Ok (VNum (Number.parseFloat s))
        else Ok (VStr s)).
Proof.
  split; [apply isJSON_spec|]. split.
  - intros H. pose proof (isJSON_not_number s H) as HN. split; [exact HN|].
    rewrite parseValue_string, HN, H. reflexivity.
  - intros H. rewrite parseValue_string, H. reflexivity.
Qed.

(** C7 at the array text [[1,2]], read as JSON, and at the plain text
    [hello], returned unchanged. *)
Lemma C7_witness :
  (ValueParser.isNumber "[1,2]" = false
   /\ ValueParser.parseValue (VStr "[1,2]") = JSON.parse "[1,2]")
  /\ ValueParser.parseValue (VStr "hello") =
     (if ValueParser.isNumber "hello"
      then Ok (VNum (Number.parseFloat "hello"))
      else Ok (VStr "hello")).
Proof.
  split.
  - apply (proj1 (proj2 (C7_parseValue_json_branch "[1,2]"))). reflexivity.
  - apply (proj2 (proj2 (C7_parseValue_json_branch "hello"))). reflexivity.
Defined.

(** C8. For all keys [k1], [k2] and values [v1], [v2] (any values but
    [undefined], which no schema type matches a stored value with),
    [multiSet [[k1, v1], [k2, v2]]], then [multiRemove [k1, k2]], then
    [multiGet [k1, k2]] returns both entries as [null], the absence
    marker. *)
Theorem C8_batch_symmetry (k1 k2 : string) (v1 v2 : value)
    (st : AsyncStorage.store) :
  v1 <> VUndefined -> v2 <> VUndefined ->
  outcome (TypeSafeStorage.multiSet [(k1, v1); (k2, v2)] ;;
           TypeSafeStorage.multiRemove [k1; k2] ;;
           TypeSafeStorage.multiGet [k1; k2]) st
  = Ok [(k1, VNull); (k2, VNull)].
Proof.
  intros H1 H2.
  destruct (stringify_defined v1 H1) as [s1 E1].
  destruct (stringify_defined v2 H2) as [s2 E2].
  unfold outcome, AsyncStorage.bind at 1.
  rewrite (multiSet_two_final k1 k2 v1 v2 s1 s2 st E1 E2).
  run. cbn.
  rewrite lookup_delete_eq.
  destruct (decide (k1 = k2)) as [->|Hne].
  - rewrite lookup_delete_eq. reflexivity.
  - rewrite lookup_delete_ne by congruence.
    rewrite lookup_delete_eq. reflexivity.
Qed.

(** C8 at a string and an object. *)
Lemma C8_witness :
  outcome (TypeSafeStorage.multiSet
             [("userID", VStr "123");
              ("settings", VObj [("dark", VBool true)])] ;;
           TypeSafeStorage.multiRemove ["userID"; "settings"] ;;
           TypeSafeStorage.multiGet ["userID"; "settings"])
    AsyncStorage.empty
  = Ok [("userID", VNull); ("settings", VNull)].
Proof.
  apply (C8_batch_symmetry "userID" "settings" (VStr "123")
           (VObj [("dark", VBool true)]) AsyncStorage.empty); discriminate.
Defined.




(** C10. The compatibility parser [parseValue] returns every input that is
    not a string unchanged, and it is idempotent: applying it to its own
    result gives that result again (a thrown error propagates).  A string it
    returns is one that neither [isNumber] nor [isJSON] accepts. *)
Theorem C10_parseValue_idempotent :
  (forall v, typeof v <> TString -> ValueParser.parseValue v = Ok v)
  /\ (forall v,
        and_then (ValueParser.parseValue v) ValueParser.parseValue
        = ValueParser.parseValue v)
  /\ (forall v s,
        ValueParser.parseValue v = Ok (VStr s) ->
        v = VStr s /\ ValueParser.isNumber s = false
        /\ ValueParser.isJSON s = false).
Proof.
  split; [exact parseValue_not_string|]. split; [exact parseValue_idempotent|].
  intros v s H. destruct v; simpl in H; try discriminate.
  destruct (ValueParser.isNumber s0) eqn:EN; [discriminate|].
  destruct (ValueParser.isJSON s0) eqn:EJ.
  - pose proof (parse_bracketed_not_string s0 _ EJ H). discriminate.
  - injection H as ->. auto.
Qed.

(** C10 at the number [42] (not a string) and at the plain text [hello]. *)
Lemma C10_witness :
  ValueParser.parseValue (VNum (Number.of_Z 42)) = Ok (VNum (Number.of_Z 42))
  /\ (VStr "hello" = VStr "hello"
      /\ ValueParser.isNumber "hello" = false
      /\ ValueParser.isJSON "hello" = false).
Proof.
  split.
  - apply (proj1 C10_parseValue_idempotent). discriminate.
  - apply (proj2 (proj2 C10_parseValue_idempotent) (VStr "hello") "hello").
    reflexivity.
Defined.

(* ===================================================================== *)
(** ** Further properties of the facade *)
(* ===================================================================== *)

Section FacadeLaws.

Import TypeSafeStorage.

Implicit Types (k key : string) (v : value) (st : AsyncStorage.store)
  (pairs : list (string * value)) (keys : list string).

Lemma text_of_defined v : v <> VUndefined -> stringify v = VStr (text_of v).
Proof.
  intros H. unfold text_of. destruct (stringify_defined v H) as [s ->].
  reflexivity.
Qed.

Lemma storable_defined v : storable v -> v <> VUndefined.
Proof. intros [R _] ->. exact R. Qed.

Lemma storable_parse v : storable v -> JSON.parse (text_of v) = Ok v.
Proof.
  intros [R Ht]. pose proof (representable_reads_back v R Ht) as H.
  unfold reads_back in H. unfold text_of.
  destruct (stringify v); try contradiction. exact H.
Qed.

Lemma setItem_step key v st :
  v <> VUndefined ->
  outcome (setItem key v) st = Ok tt
  /\ entries_after (setItem key v) st
     = <[key := text_of v]> (AsyncStorage.entries st).
Proof.
  intros H. unfold entries_after.
  destruct (setItem_final key v (text_of v) st (text_of_defined v H))
    as [-> ->]. split; reflexivity.
Qed.

(** Sequencing: outcome and entries of [m ;; k] when [m] succeeds. *)
Lemma bind_ok {A B} (m : AsyncStorage.M A) (f : A -> AsyncStorage.M B)
    (a : A) st :
  outcome m st = Ok a ->
  outcome (AsyncStorage.bind m f) st = outcome (f a) (final m st)
  /\ final (AsyncStorage.bind m f) st = final (f a) (final m st).
Proof.
  unfold outcome, final, AsyncStorage.bind.
  destruct (m st) as [[a'|e] st']; simpl; [|discriminate].
  intros [= ->]. split; reflexivity.
Qed.

Lemma bind_throw {A B} (m : AsyncStorage.M A) (f : A -> AsyncStorage.M B)
    (e : error) st :
  outcome m st = Throw e ->
  outcome (AsyncStorage.bind m f) st = Throw e
  /\ final (AsyncStorage.bind m f) st = final m st.
Proof.
  unfold outcome, final, AsyncStorage.bind.
  destruct (m st) as [[a'|e'] st']; simpl; [discriminate|].
  intros [= ->]. split; reflexivity.
Qed.

(** *** Single keys *)

(** X1. What [setItem] writes for a JSON-representable value that is not a
    string, [getItem] of the same key returns. *)
Theorem round_trip_storable key v st :
  storable v -> outcome (setItem key v ;; getItem key) st = Ok v.
Proof. intros [R Ht]. apply setItem_getItem_round_trip; assumption. Qed.

Lemma round_trip_storable_witness :
  outcome (setItem "settings" (VObj [("dark", VBool true);
                                     ("size", VNum (Number.of_Z 12))]) ;;
           getItem "settings") AsyncStorage.empty
  = Ok (VObj [("dark", VBool true); ("size", VNum (Number.of_Z 12))]).
Proof.
  apply (round_trip_storable "settings"
           (VObj [("dark", VBool true); ("size", VNum (Number.of_Z 12))])
           AsyncStorage.empty).
  split; [|discriminate]. vm_compute.
  repeat split; try discriminate.
  apply NoDup_cons. split; [|apply NoDup_singleton].
  intros H. apply list_elem_of_singleton in H. discriminate.
Defined.



(** *** Batches *)

Lemma raw_pairs_texts pairs :
  Forall (fun p => snd p <> VUndefined) pairs ->
  AsyncStorage.raw_pairs (map (fun p => (fst p, stringify (snd p))) pairs)
  = Some (map (fun p => (fst p, text_of (snd p))) pairs).
Proof.
  induction 1 as [|[k v] pairs Hv _ IH]; [reflexivity|].
  simpl in *. rewrite (text_of_defined v Hv), IH. reflexivity.
Qed.

Lemma multiSet_step pairs st :
  Forall (fun p => snd p <> VUndefined) pairs ->
  outcome (multiSet pairs) st = Ok tt
  /\ entries_after (multiSet pairs) st
     = fold_left (fun m p => <[fst p := snd p]> m)
         (map (fun p => (fst p, text_of (snd p))) pairs)
         (AsyncStorage.entries st).
Proof.
  intros H. unfold entries_after. run. rewrite (raw_pairs_texts pairs H).
  split; reflexivity.
Qed.

Lemma for_each_setItem_step pairs st :
  Forall (fun p => snd p <> VUndefined) pairs ->
  outcome (for_each (fun p => setItem (fst p) (snd p)) pairs) st = Ok tt
  /\ entries_after (for_each (fun p => setItem (fst p) (snd p)) pairs) st
     = fold_left (fun m p => <[fst p := snd p]> m)
         (map (fun p => (fst p, text_of (snd p))) pairs)
         (AsyncStorage.entries st).
Proof.
  intros H. revert st. induction H as [|[k v] pairs Hv _ IH]; intros st.
  - split; reflexivity.
  - destruct (setItem_step k v st Hv) as [Ho He].
    cbn [for_each fst snd map fold_left] in *. unfold entries_after in *.
    destruct (bind_ok (setItem k v)
                (fun _ => for_each (fun p => setItem (fst p) (snd p)) pairs)
                tt st Ho) as [-> ->].
    destruct (IH (final (setItem k v) st)) as [-> ->].
    rewrite He. split; reflexivity.
Qed.

(** X6. [multiSet] stores what writing the pairs one after the other with
    [setItem] stores (for a key given twice, its last value), and both
    succeed, when no value is [undefined]. *)
Theorem multiSet_as_setItems pairs st :
  Forall (fun p => snd p <> VUndefined) pairs ->
  outcome (multiSet pairs) st = Ok tt
  /\ outcome (for_each (fun p => setItem (fst p) (snd p)) pairs) st = Ok tt
  /\ entries_after (multiSet pairs) st
     = entries_after (for_each (fun p => setItem (fst p) (snd p)) pairs) st.
Proof.
  intros H. destruct (multiSet_step pairs st H) as [-> ->].
  destruct (for_each_setItem_step pairs st H) as [-> ->].
  repeat split.
Qed.

Lemma multiSet_as_setItems_witness :
  outcome (multiSet [("a", VStr "x"); ("b", VArr []); ("a", VNull)])
    AsyncStorage.empty = Ok tt
  /\ outcome (for_each (fun p => setItem (fst p) (snd p))
                [("a", VStr "x"); ("b", VArr []); ("a", VNull)])
       AsyncStorage.empty = Ok tt
  /\ entries_after (multiSet [("a", VStr "x"); ("b", VArr []); ("a", VNull)])
       AsyncStorage.empty
     = entries_after (for_each (fun p => setItem (fst p) (snd p))
                        [("a", VStr "x"); ("b", VArr []); ("a", VNull)])
         AsyncStorage.empty.
Proof.
  apply (multiSet_as_setItems
           [("a", VStr "x"); ("b", VArr []); ("a", VNull)] AsyncStorage.empty).
  repeat constructor; discriminate.
Defined.

(** X7. [multiGet] answers as [getItem] does key by key: it returns a list
    exactly when that list pairs every key, in order, with what [getItem]
    returns for it. *)
Theorem multiGet_as_getItems keys st (l : list (string * value)) :
  outcome (multiGet keys) st = Ok l <->
  Forall2 (fun k q => fst q = k /\ outcome (getItem k) st = Ok (snd q))
    keys l.
Proof.
  rewrite multiGet_positions. split; intros H; eapply Forall2_impl;
    try exact H; intros k q [Hk Hv]; (split; [exact Hk|]);
    rewrite getItem_outcome in *; exact Hv.
Qed.

Lemma parse_only_syntax_error (s : string) (e : error) :
  JSON.parse s = Throw e -> e = SyntaxError.
Proof.
  unfold JSON.parse. cbv zeta.
  destruct (JSON.parse_value _ _) as [v rest| |];
    [destruct (JSON.skip_ws rest)|..]; congruence.
Qed.

Lemma parse_raw_throw (raw : option string) (e : error) :
  parse_raw raw = Throw e ->
  e = SyntaxError /\ exists t, raw = Some t /\ JSON.parse t = Throw SyntaxError.
Proof.
  destruct raw as [t|]; simpl; [|discriminate]. intros H.
  pose proof (parse_only_syntax_error t e H) as ->. eauto.
Qed.

Lemma parse_pairs_throw (values : list (string * option string)) (e : error) :
  parse_pairs values = Throw e ->
  e = SyntaxError
  /\ exists k raw, In (k, Some raw) values
                   /\ JSON.parse raw = Throw SyntaxError.
Proof.
  induction values as [|[k raw] rest IH]; simpl; [discriminate|].
  destruct (parse_raw raw) as [v|e'] eqn:E.
  - destruct (parse_pairs rest) as [l|e''] eqn:E'; [discriminate|].
    intros [= <-]. destruct (IH eq_refl) as (-> & k' & raw' & Hin & P).
    split; [reflexivity|]. exists k', raw'. auto.
  - intros [= <-]. destruct (parse_raw_throw raw e' E) as (-> & t & -> & P).
    split; [reflexivity|]. exists k, t. auto.
Qed.

Lemma parse_pairs_unreadable (values : list (string * option string))
    (k : string) (raw : string) :
  In (k, Some raw) values -> JSON.parse raw = Throw SyntaxError ->
  parse_pairs values = Throw SyntaxError.
Proof.
  intros Hin P. induction values as [|[k' raw'] rest IH]; [contradiction|].
  simpl. destruct (parse_raw raw') as [v|e'] eqn:E.
  - destruct Hin as [[= -> ->]|Hin]; [simpl in E; congruence|].
    rewrite (IH Hin). reflexivity.
  - destruct (parse_raw_throw raw' e' E) as (-> & _). reflexivity.
Qed.

(** X8. Of what the store answers, a missing entry is read as [null] and a
    text that is not JSON fails the read: [getItem] throws a SyntaxError
    exactly when the entry of its key is not a JSON text, and [multiGet]
    exactly when the entry of one of its keys is not: one unreadable entry
    fails the whole batch. *)
Theorem reads_fail_on_unreadable_entries key keys st :
  (AsyncStorage.entries st !! key = None ->
   outcome (getItem key) st = Ok VNull)
  /\ (outcome (getItem key) st = Throw SyntaxError <->
      exists raw, AsyncStorage.entries st !! key = Some raw
                  /\ JSON.parse raw = Throw SyntaxError)
  /\ (outcome (multiGet keys) st = Throw SyntaxError <->
      exists k, In k keys /\ outcome (getItem k) st = Throw SyntaxError).
Proof.
  split; [|split].
  - intros E. rewrite getItem_outcome, E. reflexivity.
  - rewrite getItem_outcome. split.
    + intros H. destruct (parse_raw_throw _ _ H) as (_ & t & -> & P). eauto.
    + intros (raw & -> & P). exact P.
  - rewrite multiGet_outcome. split.
    + intros H. destruct (parse_pairs_throw _ _ H) as (_ & k & raw & Hin & P).
      apply in_map_iff in Hin as (k' & [= -> E] & Hin).
      exists k. split; [exact Hin|]. rewrite getItem_outcome, E. exact P.
    + intros (k & Hin & H). rewrite getItem_outcome in H.
      destruct (parse_raw_throw _ _ H) as (_ & t & E & P).
      apply (parse_pairs_unreadable _ k t); [|exact P].
      apply in_map_iff. exists k. rewrite E. auto.
Qed.

Lemma reads_fail_on_unreadable_entries_witness :
  outcome (getItem "b")
    (AsyncStorage.mkStore (<["a" := "hello"]> ∅) []) = Ok VNull
  /\ outcome (getItem "a")
       (AsyncStorage.mkStore (<["a" := "hello"]> ∅) []) = Throw SyntaxError
  /\ outcome (multiGet ["b"; "a"])
       (AsyncStorage.mkStore (<["a" := "hello"]> ∅) []) = Throw SyntaxError.
Proof.
  pose proof (reads_fail_on_unreadable_entries "a" ["b"; "a"]
                (AsyncStorage.mkStore (<["a" := "hello"]> ∅) []))
    as (_ & H1 & H2).
  pose proof (proj1 (reads_fail_on_unreadable_entries "b" []
                       (AsyncStorage.mkStore (<["a" := "hello"]> ∅) [])))
    as H0.
  assert (Ha : outcome (getItem "a")
                 (AsyncStorage.mkStore (<["a" := "hello"]> ∅) [])
               = Throw SyntaxError).
  { apply H1. exists "hello". split; reflexivity. }
  split; [apply H0; reflexivity|].
  split; [exact Ha|]. apply H2. exists "a". split; [simpl; auto|exact Ha].
Defined.

Lemma lookup_fold_insert (l : list (string * string))
    (m : gmap string string) (k : string) :
  ~ In k (map fst l) ->
  fold_left (fun m p => <[fst p := snd p]> m) l m !! k = m !! k.
Proof.
  revert m. induction l as [|[k' s'] l IH]; intros m H; [reflexivity|].
  cbn [fold_left fst snd map] in *.
  rewrite IH by (intros ?; apply H; right; assumption).
  apply lookup_insert_ne. intros ->. apply H. left. reflexivity.
Qed.

Lemma lookup_fold_insert_in (l : list (string * string))
    (m : gmap string string) (k s : string) :
  List.NoDup (map fst l) -> In (k, s) l ->
  fold_left (fun m p => <[fst p := snd p]> m) l m !! k = Some s.
Proof.
  revert m. induction l as [|[k' s'] l IH]; intros m Hnd Hin;
    [contradiction|].
  cbn [fold_left fst snd map] in *. inversion Hnd as [|? ? Hk Hnd']; subst.
  destruct Hin as [[= -> ->]|Hin].
  - rewrite lookup_fold_insert by exact Hk. apply lookup_insert_eq.
  - apply IH; assumption.
Qed.

(** X10. A batch written by [multiSet] is read back by [multiGet]: for pairs
    with distinct keys and JSON-representable values that are not strings,
    [multiGet] of the keys returns the pairs, in order. *)
Theorem multiSet_multiGet_round_trip pairs st :
  List.NoDup (map fst pairs) ->
  Forall (fun p => storable (snd p)) pairs ->
  outcome (multiSet pairs ;; multiGet (map fst pairs)) st = Ok pairs.
Proof.
  intros Hnd Hall.
  assert (Hdef : Forall (fun p => snd p <> VUndefined) pairs).
  { eapply Forall_impl; [exact Hall|]. intros p. apply storable_defined. }
  destruct (multiSet_step pairs st Hdef) as [Ho He].
  unfold entries_after in He.
  rewrite (proj1 (bind_ok (multiSet pairs) (fun _ => multiGet _) tt st Ho)).
  rewrite multiGet_outcome, He. apply parse_pairs_spec.
  rewrite !Forall2_fmap_l. apply Forall_Forall2_diag.
  rewrite Forall_forall in Hall |- *. intros [k v] Hin.
  apply list_elem_of_In in Hin. cbn [fst snd compose].
  split; [reflexivity|].
  rewrite (lookup_fold_insert_in _ _ k (text_of v)).
  - simpl. apply storable_parse.
    apply (Hall (k, v)), list_elem_of_In, Hin.
  - rewrite map_map. exact Hnd.
  - apply in_map_iff. exists (k, v). auto.
Qed.

Lemma multiSet_multiGet_round_trip_witness :
  outcome (multiSet [("connections", VArr [VNum (Number.of_Z 1)]);
                     ("settings", VObj [("dark", VBool false)])] ;;
           multiGet (map fst [("connections", VArr [VNum (Number.of_Z 1)]);
                              ("settings", VObj [("dark", VBool false)])]))
    AsyncStorage.empty
  = Ok [("connections", VArr [VNum (Number.of_Z 1)]);
        ("settings", VObj [("dark", VBool false)])].
Proof.
  apply (multiSet_multiGet_round_trip
           [("connections", VArr [VNum (Number.of_Z 1)]);
            ("settings", VObj [("dark", VBool false)])] AsyncStorage.empty).
  - repeat constructor; simpl; intros H; intuition discriminate.
  - constructor; [|constructor; [|constructor]].
    + split; [|discriminate]. vm_compute. repeat split; discriminate.
    + split; [|discriminate]. simpl. split; [apply NoDup_singleton|tauto].
Defined.

(** *** Merges *)

(** X11. [mergeItem] hands the store a JSON text of its value: for every
    JSON-representable value, strings included, the text that reaches the
    merge primitive is one that [JSON.parse] reads back as the value. *)
Theorem mergeItem_hands_json key v st :
  representable v ->
  exists s,
    AsyncStorage.calls (final (mergeItem key v) st)
    = (AsyncStorage.calls st ++ [AsyncStorage.CMergeItem key (VStr s)])%list
    /\ JSON.parse s = Ok v.
Proof.
  intros R. destruct (parse_stringify v R) as (s & Es & Ps). exists s.
  rewrite mergeItem_calls, Es. auto.
Qed.

Lemma mergeItem_hands_json_witness :
  exists s,
    AsyncStorage.calls (final (mergeItem "name" (VStr "Ann")) AsyncStorage.empty)
    = ([] ++ [AsyncStorage.CMergeItem "name" (VStr s)])%list
    /\ JSON.parse s = Ok (VStr "Ann").
Proof.
  apply (mergeItem_hands_json "name" (VStr "Ann") AsyncStorage.empty).
  exact I.
Defined.

Lemma quote_char_length (c : ascii) : 1 <= length (JSON.quote_char c).
Proof.
  unfold JSON.quote_char. repeat case_match; simpl; lia.
Qed.

Lemma quote_length (s : string) :
  String.length s < length (JSON.quote s).
Proof.
  unfold JSON.quote. rewrite <- (string_of_list_ascii_of_string s) at 1.
  generalize (list_ascii_of_string s) as l. intros l.
  assert (H : length l <= length (flat_map JSON.quote_char l)).
  { induction l as [|c l IH]; simpl; [lia|].
    rewrite length_app. pose proof (quote_char_length c). lia. }
  assert (E : String.length (string_of_list_ascii l) = length l).
  { clear H. induction l as [|c l IH]; simpl; congruence. }
  rewrite E. simpl. rewrite length_app. simpl. lia.
Qed.

Lemma JSON_stringify_string_differs (s : string) :
  JSON.stringify (VStr s) <> VStr s.
Proof.
  intros E0.
  assert (E : string_of_list_ascii (JSON.quote s) = s)
    by (unfold JSON.stringify in E0; cbn [JSON.serialize] in E0; congruence).
  pose proof (quote_length s) as H.
  assert (L : forall l, String.length (string_of_list_ascii l) = length l)
    by (induction l as [|c l IH]; simpl; congruence).
  apply (f_equal String.length) in E. rewrite L in E. lia.
Qed.

(** X12. For values that are not strings, [multiMerge] hands the store,
    pair by pair, the text [mergeItem] hands it for the pair: the JSON text
    of the value.  For a string the two differ: [multiMerge] hands the store
    the string as it is, [mergeItem] its JSON text, between quotes. *)
Theorem multiMerge_texts_as_mergeItem pairs key v (s : string) st :
  (Forall (fun p => typeof (snd p) <> TString) pairs ->
   AsyncStorage.calls (final (multiMerge pairs) st)
   = (AsyncStorage.calls st
      ++ [AsyncStorage.CMultiMerge
            (map (fun p => (fst p, JSON.stringify (snd p))) pairs)])%list)
  /\ AsyncStorage.calls (final (mergeItem key v) st)
     = (AsyncStorage.calls st
        ++ [AsyncStorage.CMergeItem key (JSON.stringify v)])%list
  /\ AsyncStorage.calls (final (multiMerge [(key, VStr s)]) st)
     = (AsyncStorage.calls st
        ++ [AsyncStorage.CMultiMerge [(key, VStr s)]])%list
  /\ JSON.stringify (VStr s) <> VStr s.
Proof.
  split; [|split; [|split]].
  - intros H.
    assert (E : map (fun p => (fst p, stringify (snd p))) pairs
                = map (fun p => (fst p, JSON.stringify (snd p))) pairs).
    { induction H as [|[k' v'] l Ht _ IH]; [reflexivity|].
      cbn [map fst snd] in *. rewrite IH. f_equal. f_equal.
      destruct v'; try reflexivity. exfalso. apply Ht. reflexivity. }
    unfold multiMerge, AsyncStorage.multiMerge. rewrite E. run.
    destruct (AsyncStorage.raw_pairs _); reflexivity.
  - apply mergeItem_calls.
  - unfold multiMerge, AsyncStorage.multiMerge. run. reflexivity.
  - apply JSON_stringify_string_differs.
Qed.

Lemma multiMerge_texts_as_mergeItem_witness :
  AsyncStorage.calls
    (final (multiMerge [("settings", VObj [("dark", VBool true)])])
       AsyncStorage.empty)
  = ([] ++ [AsyncStorage.CMultiMerge
              (map (fun p => (fst p, JSON.stringify (snd p)))
                 [("settings", VObj [("dark", VBool true)])])])%list.
Proof.
  apply (proj1 (multiMerge_texts_as_mergeItem
                  [("settings", VObj [("dark", VBool true)])] "k" VNull "s"
                  AsyncStorage.empty)).
  repeat constructor; discriminate.
Defined.

End FacadeLaws.

(* ===================================================================== *)
(** ** Further properties of the value parser *)
(* ===================================================================== *)

Section ValueParserLaws.

Import ValueParser.

Implicit Types (s : string) (v : value).

Lemma string_of_list_ascii_length (l : list ascii) :
  String.length (string_of_list_ascii l) = length l.
Proof. induction l as [|c l IH]; simpl; congruence. Qed.

Lemma get_last (l : list ascii) (c : ascii) :
  String.get (length l) (string_of_list_ascii (l ++ [c]))%list = Some c.
Proof. induction l as [|a l IH]; [reflexivity|exact IH]. Qed.

Lemma char_at_last (l : list ascii) (c : ascii) :
  let s := string_of_list_ascii (l ++ [c])%list in
  char_at s (Z.of_nat (String.length s) - 1) = Some c.
Proof.
  cbv zeta. rewrite string_of_list_ascii_length, length_app. simpl length.
  unfold char_at.
  replace (Z.of_nat (length l + 1) - 1)%Z with (Z.of_nat (length l)) by lia.
  destruct (Z.ltb_spec (Z.of_nat (length l)) 0) as [H|_]; [lia|].
  rewrite Nat2Z.id. apply get_last.
Qed.

(** The text of an array or of an object is bracket-delimited. *)
Lemma isJSON_array_text (body : list ascii) :
  isJSON (string_of_list_ascii ("["%char :: body ++ ["]"%char])%list) = true.
Proof.
  apply isJSON_spec. right. split; [reflexivity|].
  apply (char_at_last ("["%char :: body) "]"%char).
Qed.

Lemma isJSON_object_text (body : list ascii) :
  isJSON (string_of_list_ascii ("{"%char :: body ++ ["}"%char])%list) = true.
Proof.
  apply isJSON_spec. left. split; [reflexivity|].
  apply (char_at_last ("{"%char :: body) "}"%char).
Qed.

Lemma parseValue_json_text s v :
  isJSON s = true -> JSON.parse s = Ok v -> parseValue (VStr s) = Ok v.
Proof.
  intros HJ HP. rewrite parseValue_string, (isJSON_not_number s HJ), HJ.
  exact HP.
Qed.

Lemma parseValue_number_text (x : Number.number) :
  number_representable x ->
  parseValue (VStr (Number.to_string x)) = Ok (VNum x).
Proof.
  intros Hx.
  assert (Hwf : Number.wf x) by (destruct x; simpl in *; tauto).
  assert (Hn : x <> Number.NaN) by (destruct x; simpl in *; congruence).
  assert (E : Number.parseFloat (Number.to_string x) = x).
  { rewrite (parseFloat_to_string x Hwf Hn).
    destruct x; simpl in *; congruence. }
  apply parseValue_number. split; [|symmetry; exact E].
  apply isNumber_string_form; rewrite E; [|reflexivity].
  apply isNaN_false, Hn.
Qed.

(** X13. [parseValue] undoes [stringify] on numbers, arrays and objects
    (JSON-representable ones), and on the strings that are neither
    number-like nor bracket-delimited.  It does not on booleans and [null]:
    their text comes back as a string. *)
Theorem parseValue_stringify :
  (forall v,
     representable v ->
     typeof v <> TString -> typeof v <> TBoolean -> v <> VNull ->
     parseValue (stringify v) = Ok v)
  /\ (forall s,
        isNumber s = false -> isJSON s = false ->
        parseValue (stringify (VStr s)) = Ok (VStr s))
  /\ (forall b : bool,
        parseValue (stringify (VBool b))
        = Ok (VStr (if b then "true" else "false")))
  /\ parseValue (stringify VNull) = Ok (VStr "null").
Proof.
  split; [|split; [|split]].
  - intros v R Hs Hb Hn.
    destruct v as [| |b|x|s|items|props];
      [contradiction|congruence|simpl in Hb; congruence| |
       simpl in Hs; congruence| |].
    + (* a number *)
      assert (E : stringify (VNum x) = VStr (Number.to_string x))
        by (destruct x; simpl in R; try contradiction; reflexivity).
      rewrite E. apply parseValue_number_text, R.
    + (* an array *)
      destruct (parse_stringify (VArr items) R) as (t & Et & Pt).
      change (stringify (VArr items)) with (JSON.stringify (VArr items)).
      rewrite Et. apply parseValue_json_text; [|exact Pt].
      unfold JSON.stringify in Et. cbn [JSON.serialize] in Et.
      injection Et as <-. apply isJSON_array_text.
    + (* an object *)
      destruct (parse_stringify (VObj props) (conj (proj1 R) (proj2 R)))
        as (t & Et & Pt).
      change (stringify (VObj props)) with (JSON.stringify (VObj props)).
      rewrite Et. apply parseValue_json_text; [|exact Pt].
      unfold JSON.stringify in Et. rewrite serialize_object in Et.
      injection Et as <-. apply isJSON_object_text.
  - intros s HN HJ. change (stringify (VStr s)) with (VStr s).
    rewrite parseValue_string, HN, HJ. reflexivity.
  - intros []; reflexivity.
  - reflexivity.
Qed.

Lemma parseValue_stringify_witness :
  parseValue (stringify (VArr [VStr "a"; VNum (Number.of_Z 2)]))
  = Ok (VArr [VStr "a"; VNum (Number.of_Z 2)])
  /\ parseValue (stringify (VStr "hello")) = Ok (VStr "hello").
Proof.
  split.
  - apply (proj1 parseValue_stringify); try discriminate.
    vm_compute. repeat split; discriminate.
  - apply (proj1 (proj2 parseValue_stringify)); reflexivity.
Defined.

(** X14. A string of fewer than two characters is never read as JSON: the
    empty string and a lone bracket are returned unchanged, without a
    parse. *)
Theorem isJSON_needs_two_characters s :
  String.length s < 2 ->
  isJSON s = false
  /\ (isNumber s = false -> parseValue (VStr s) = Ok (VStr s)).
Proof.
  intros Hl.
  assert (HJ : isJSON s = false).
  { destruct s as [|c [|c' s']]; [reflexivity| |simpl in Hl; lia].
    unfold isJSON. simpl.
    destruct (Ascii.eqb c "{") eqn:E1;
      [apply Ascii.eqb_eq in E1; subst; reflexivity|].
    destruct (Ascii.eqb c "[") eqn:E2;
      [apply Ascii.eqb_eq in E2; subst; reflexivity|reflexivity]. }
  split; [exact HJ|]. intros HN.
  rewrite parseValue_string, HN, HJ. reflexivity.
Qed.

Lemma isJSON_needs_two_characters_witness :
  isJSON "{" = false
  /\ (isNumber "{" = false -> parseValue (VStr "{") = Ok (VStr "{")).
Proof. apply (isJSON_needs_two_characters "{"). simpl. lia. Defined.

(** X15. [parseValue] throws only a SyntaxError, and only on a
    bracket-delimited string that is not a JSON text; on every other input
    it returns a value. *)
Theorem parseValue_throws v (e : error) :
  parseValue v = Throw e <->
  e = SyntaxError
  /\ exists s, v = VStr s /\ isJSON s = true
               /\ JSON.parse s = Throw SyntaxError.
Proof.
  split.
  - destruct v as [| |b|x|s|items|props]; try discriminate.
    rewrite parseValue_string.
    destruct (isNumber s); [discriminate|].
    destruct (isJSON s) eqn:HJ; [|discriminate].
    intros H. pose proof (parse_only_syntax_error s e H) as ->.
    split; [reflexivity|]. exists s. auto.
  - intros (-> & s & -> & HJ & HP).
    rewrite parseValue_string, (isJSON_not_number s HJ), HJ. exact HP.
Qed.

Lemma parse_bracketed_composite s v :
  isJSON s = true -> JSON.parse s = Ok v ->
  (exists items, v = VArr items) \/ (exists props, v = VObj props).
Proof.
  intros H. apply isJSON_first in H as [s' [-> | ->]];
    unfold JSON.parse; simpl list_ascii_of_string.
  - pose proof (parse_value_brace
      (2 * length ("{"%char :: list_ascii_of_string s') + 2)
      (list_ascii_of_string s')) as P.
    destruct JSON.parse_value as [w rest| |]; try discriminate.
    destruct P as [props ->]. destruct (JSON.skip_ws rest); [|discriminate].
    intros [= <-]. right. eauto.
  - pose proof (parse_value_bracket
      (2 * length ("["%char :: list_ascii_of_string s') + 2)
      (list_ascii_of_string s')) as P.
    destruct JSON.parse_value as [w rest| |]; try discriminate.
    destruct P as [items ->]. destruct (JSON.skip_ws rest); [|discriminate].
    intros [= <-]. left. eauto.
Qed.

(** X16. What [parseValue] returns for a string passes [validateJSON]
    exactly when the string was read as JSON: a parsed object or array is
    accepted, a number or a plain string is refused. *)
Theorem validateJSON_after_parseValue s v :
  parseValue (VStr s) = Ok v ->
  (validateJSON v = Ok tt <-> isJSON s = true).
Proof.
  rewrite parseValue_string. intros H.
  destruct (isNumber s) eqn:HN.
  - injection H as <-. split; [|intros HJ].
    + intros Hv. apply (proj2 (validateJSON_spec _)) in Hv.
      destruct Hv as [[? Hv]|[? Hv]]; discriminate.
    + rewrite (isJSON_not_number s HJ) in HN. discriminate.
  - destruct (isJSON s) eqn:HJ.
    + split; [reflexivity|]. intros _.
      apply (proj2 (validateJSON_spec v)).
      apply (parse_bracketed_composite s v HJ H).
    + injection H as <-. split; [|discriminate].
      intros Hv. apply (proj2 (validateJSON_spec _)) in Hv.
      destruct Hv as [[? Hv]|[? Hv]]; discriminate.
Qed.

Lemma validateJSON_after_parseValue_witness :
  validateJSON (VArr []) = Ok tt <-> isJSON "[ ]" = true.
Proof.
  apply (validateJSON_after_parseValue "[ ]" (VArr [])). reflexivity.
Defined.

(** X17. White space in front of a text does not change whether it is
    number-like, nor the number it is read as. *)
Theorem isNumber_leading_space (c : ascii) s :
  is_js_space c = true ->
  Number.parseFloat (String c s) = Number.parseFloat s
  /\ isNumber (String c s) = isNumber s
  /\ (isNumber s = true ->
      parseValue (VStr (String c s)) = parseValue (VStr s)).
Proof.
  intros Hc.
  assert (Ef : Number.parseFloat (String c s) = Number.parseFloat s).
  { unfold Number.parseFloat. simpl. rewrite Hc. reflexivity. }
  assert (Eo : Number.of_string (String c s) = Number.of_string s).
  { unfold Number.of_string, trim. simpl. rewrite Hc. reflexivity. }
  assert (En : isNumber (String c s) = isNumber s).
  { unfold isNumber, loose_equal. rewrite Ef, Eo. reflexivity. }
  split; [exact Ef|]. split; [exact En|].
  intros HN. rewrite !parseValue_string, En, HN, Ef. reflexivity.
Qed.

Lemma isNumber_leading_space_witness :
  Number.parseFloat (String " "%char "42") = Number.parseFloat "42"
  /\ isNumber (String " "%char "42") = isNumber "42"
  /\ (isNumber "42" = true ->
      parseValue (VStr (String " "%char "42")) = parseValue (VStr "42")).
Proof. apply (isNumber_leading_space " "%char "42"). reflexivity. Defined.

End ValueParserLaws.
